(** * GameClient: state synchronisation and movement prediction

    A shallow embedding of the [GameClient] class of the game client
    (the revision with client-side prediction: [sendMoveCommand],
    [calculateNewPosition], [updateMyPosition], [handleServerMessage],
    [updateCamera], [renderAvatar]).

    Modelling choices.
    - JavaScript objects that are shared by reference (the player objects)
      live in an explicit object heap, a list indexed by allocation order;
      [this.players] maps an id to a reference, and [this.myPlayer] is a
      reference too, so aliasing between the two is visible.
    - World coordinates and canvas sizes are integers ([Z]); the camera
      offset is a rational ([Q]) because [updateCamera] halves the canvas
      size.  All numbers of the program stay far below 2^53, where the
      arithmetic of JavaScript numbers is exact.
    - [this.pressedKeys] is an object whose property order matters
      ([Object.entries]); it is an association list in insertion order.
    - Effects on the outside world ([socket.send], painting, starting an
      image load) are appended to a trace; each entry also records the
      position under which the controlled player is stored in
      [this.players] at that instant.
    - [this.players] is an object too: next to the map from ids to
      references, [playerKeys] holds its property keys in the order in
      which [for ... in] enumerates them (array indices first, in
      ascending order, then the other keys in insertion order).
    - [render] and [renderAvatar] are [async].  A call of [render] runs
      synchronously up to the first [await] it reaches: camera update,
      painting, and the call of [renderAvatar] for the first player, up to
      the [await] of that call or to its end.  What follows an [await]
      (the later iterations of the loop, the part of [renderAvatar] after
      the image load) runs after the handler has returned; these
      continuations are the [ev_renderAvatar] and [ev_imageLoaded] events,
      which the event sequence schedules. *)

From Stdlib Require Import ZArith QArith Qminmax Lqa Lia.
From stdpp Require Import base option list strings gmap fin_maps pretty.

Local Open Scope Z_scope.
Local Open Scope string_scope.
Local Open Scope list_scope.

(** ** Data model *)

(** A reference to a heap-allocated JavaScript object. *)
Abbreviation loc := nat (only parsing).

(** A player object as it arrives over the wire.  [facing] and
    [animationFrame] may be absent. *)
Record Player := mkPlayer {
  id : string;
  x : Z;
  y : Z;
  facing : option string;
  animationFrame : option N;
  username : string;
  avatar : string
}.

(** An avatar definition: [frames] maps a direction to its frame images. *)
Record Avatar := mkAvatar {
  name : string;
  frames : gmap string (list string)
}.

(** A decoded image, the result of [loadAvatarImage]. *)
Record Image := mkImage {
  src : string;
  width : Z;
  height : Z
}.

(** [WebSocket.readyState]. *)
Inductive ReadyState := CONNECTING | OPEN | CLOSING | CLOSED.

(** Messages written with [socket.send]. *)
Inductive OutMsg :=
  | join_game (username : string)
  | move (x y : Z)
  | stop.

(** Inbound messages, by [action].  [P] is the representation of a player
    object and [O] of an object that maps ids to players: on the wire these
    are values, after [JSON.parse] they are references into the heap. *)
Inductive Message (P O : Type) :=
  | in_join_game (success : bool) (playerId : string) (players : O)
                 (avatars : gmap string Avatar) (error : string)
  | in_player_joined (player : P) (avatar : Avatar)
  | in_players_moved (players : O)
  | in_player_left (playerId : string)
  | in_move (success : bool) (error : string)
  | in_stop (success : bool) (error : string)
  | in_unknown (action : string).

Arguments in_join_game {P O}.
Arguments in_player_joined {P O}.
Arguments in_players_moved {P O}.
Arguments in_player_left {P O}.
Arguments in_move {P O}.
Arguments in_stop {P O}.
Arguments in_unknown {P O}.

(** A JSON object as text: key/value pairs in order, a later pair for the
    same key overriding an earlier one. *)
Definition WireMessage := Message Player (list (string * Player)).
(** A parsed object that maps ids to players: its keys in enumeration
    order and the reference under each key. *)
Definition ParsedMessage := Message loc (list string * gmap string loc).

(** What the client does to the outside world. *)
Inductive Effect :=
  | Sent (m : OutMsg)
  | Painted (cameraX cameraY : Q)
  | LoadStarted (cacheKey : string) (frameData : string)
  | DrewAvatar (cacheKey : string) (img : Image) (flip : bool).

(** A [renderAvatar] call suspended at its [await]. *)
Record Suspended := mkSuspended {
  sus_key : string;
  sus_data : string;
  sus_player : loc;
  sus_flip : bool
}.

(** The fields of [GameClient], the heap, the suspended calls and the
    trace. *)
Record GameClient := mkGameClient {
  canvasWidth : Z;
  canvasHeight : Z;
  worldImage : bool;
  heap : list Player;
  players : gmap string loc;
  playerKeys : list string;
  avatars : gmap string Avatar;
  myPlayerId : option string;
  myPlayer : option loc;
  imageCache : gmap string Image;
  pressedKeys : list (string * bool);
  lastSentDirection : option string;
  isMoving : bool;
  cameraX : Q;
  cameraY : Q;
  socket : option ReadyState;
  suspended : list Suspended;
  trace : list (Effect * option (Z * Z))
}.

Definition worldWidth : Z := 2048.
Definition worldHeight : Z := 2048.

(** ** Field assignments

    [set_f v s] is the state after [this.f = v]. *)

Definition set_canvasWidth (v : Z) (s : GameClient) : GameClient :=
  mkGameClient
    v (canvasHeight s) (worldImage s) (heap s) (players s) (playerKeys s)
    (avatars s) (myPlayerId s) (myPlayer s) (imageCache s) (pressedKeys s)
    (lastSentDirection s) (isMoving s) (cameraX s) (cameraY s) (socket s)
    (suspended s) (trace s).

Definition set_canvasHeight (v : Z) (s : GameClient) : GameClient :=
  mkGameClient
    (canvasWidth s) v (worldImage s) (heap s) (players s) (playerKeys s)
    (avatars s) (myPlayerId s) (myPlayer s) (imageCache s) (pressedKeys s)
    (lastSentDirection s) (isMoving s) (cameraX s) (cameraY s) (socket s)
    (suspended s) (trace s).

Definition set_worldImage (v : bool) (s : GameClient) : GameClient :=
  mkGameClient
    (canvasWidth s) (canvasHeight s) v (heap s) (players s) (playerKeys s)
    (avatars s) (myPlayerId s) (myPlayer s) (imageCache s) (pressedKeys s)
    (lastSentDirection s) (isMoving s) (cameraX s) (cameraY s) (socket s)
    (suspended s) (trace s).

Definition set_heap (v : list Player) (s : GameClient) : GameClient :=
  mkGameClient
    (canvasWidth s) (canvasHeight s) (worldImage s) v (players s)
    (playerKeys s) (avatars s) (myPlayerId s) (myPlayer s) (imageCache s)
    (pressedKeys s) (lastSentDirection s) (isMoving s) (cameraX s)
    (cameraY s) (socket s) (suspended s) (trace s).

Definition set_players (v : gmap string loc) (s : GameClient) : GameClient :=
  mkGameClient
    (canvasWidth s) (canvasHeight s) (worldImage s) (heap s) v
    (playerKeys s) (avatars s) (myPlayerId s) (myPlayer s) (imageCache s)
    (pressedKeys s) (lastSentDirection s) (isMoving s) (cameraX s)
    (cameraY s) (socket s) (suspended s) (trace s).

Definition set_playerKeys (v : list string) (s : GameClient) : GameClient :=
  mkGameClient
    (canvasWidth s) (canvasHeight s) (worldImage s) (heap s) (players s) v
    (avatars s) (myPlayerId s) (myPlayer s) (imageCache s) (pressedKeys s)
    (lastSentDirection s) (isMoving s) (cameraX s) (cameraY s) (socket s)
    (suspended s) (trace s).

Definition set_avatars (v : gmap string Avatar) (s : GameClient) : GameClient :=
  mkGameClient
    (canvasWidth s) (canvasHeight s) (worldImage s) (heap s) (players s)
    (playerKeys s) v (myPlayerId s) (myPlayer s) (imageCache s)
    (pressedKeys s) (lastSentDirection s) (isMoving s) (cameraX s)
    (cameraY s) (socket s) (suspended s) (trace s).

Definition set_myPlayerId (v : option string) (s : GameClient) : GameClient :=
  mkGameClient
    (canvasWidth s) (canvasHeight s) (worldImage s) (heap s) (players s)
    (playerKeys s) (avatars s) v (myPlayer s) (imageCache s)
    (pressedKeys s) (lastSentDirection s) (isMoving s) (cameraX s)
    (cameraY s) (socket s) (suspended s) (trace s).

Definition set_myPlayer (v : option loc) (s : GameClient) : GameClient :=
  mkGameClient
    (canvasWidth s) (canvasHeight s) (worldImage s) (heap s) (players s)
    (playerKeys s) (avatars s) (myPlayerId s) v (imageCache s)
    (pressedKeys s) (lastSentDirection s) (isMoving s) (cameraX s)
    (cameraY s) (socket s) (suspended s) (trace s).

Definition set_imageCache (v : gmap string Image) (s : GameClient) : GameClient :=
  mkGameClient
    (canvasWidth s) (canvasHeight s) (worldImage s) (heap s) (players s)
    (playerKeys s) (avatars s) (myPlayerId s) (myPlayer s) v
    (pressedKeys s) (lastSentDirection s) (isMoving s) (cameraX s)
    (cameraY s) (socket s) (suspended s) (trace s).

Definition set_pressedKeys (v : list (string * bool)) (s : GameClient) : GameClient :=
  mkGameClient
    (canvasWidth s) (canvasHeight s) (worldImage s) (heap s) (players s)
    (playerKeys s) (avatars s) (myPlayerId s) (myPlayer s) (imageCache s) v
    (lastSentDirection s) (isMoving s) (cameraX s) (cameraY s) (socket s)
    (suspended s) (trace s).

Definition set_lastSentDirection (v : option string) (s : GameClient) : GameClient :=
  mkGameClient
    (canvasWidth s) (canvasHeight s) (worldImage s) (heap s) (players s)
    (playerKeys s) (avatars s) (myPlayerId s) (myPlayer s) (imageCache s)
    (pressedKeys s) v (isMoving s) (cameraX s) (cameraY s) (socket s)
    (suspended s) (trace s).

Definition set_isMoving (v : bool) (s : GameClient) : GameClient :=
  mkGameClient
    (canvasWidth s) (canvasHeight s) (worldImage s) (heap s) (players s)
    (playerKeys s) (avatars s) (myPlayerId s) (myPlayer s) (imageCache s)
    (pressedKeys s) (lastSentDirection s) v (cameraX s) (cameraY s)
    (socket s) (suspended s) (trace s).

Definition set_cameraX (v : Q) (s : GameClient) : GameClient :=
  mkGameClient
    (canvasWidth s) (canvasHeight s) (worldImage s) (heap s) (players s)
    (playerKeys s) (avatars s) (myPlayerId s) (myPlayer s) (imageCache s)
    (pressedKeys s) (lastSentDirection s) (isMoving s) v (cameraY s)
    (socket s) (suspended s) (trace s).

Definition set_cameraY (v : Q) (s : GameClient) : GameClient :=
  mkGameClient
    (canvasWidth s) (canvasHeight s) (worldImage s) (heap s) (players s)
    (playerKeys s) (avatars s) (myPlayerId s) (myPlayer s) (imageCache s)
    (pressedKeys s) (lastSentDirection s) (isMoving s) (cameraX s) v
    (socket s) (suspended s) (trace s).

Definition set_socket (v : option ReadyState) (s : GameClient) : GameClient :=
  mkGameClient
    (canvasWidth s) (canvasHeight s) (worldImage s) (heap s) (players s)
    (playerKeys s) (avatars s) (myPlayerId s) (myPlayer s) (imageCache s)
    (pressedKeys s) (lastSentDirection s) (isMoving s) (cameraX s)
    (cameraY s) v (suspended s) (trace s).

Definition set_suspended (v : list Suspended) (s : GameClient) : GameClient :=
  mkGameClient
    (canvasWidth s) (canvasHeight s) (worldImage s) (heap s) (players s)
    (playerKeys s) (avatars s) (myPlayerId s) (myPlayer s) (imageCache s)
    (pressedKeys s) (lastSentDirection s) (isMoving s) (cameraX s)
    (cameraY s) (socket s) v (trace s).

Definition set_trace (v : list (Effect * option (Z * Z))) (s : GameClient) : GameClient :=
  mkGameClient
    (canvasWidth s) (canvasHeight s) (worldImage s) (heap s) (players s)
    (playerKeys s) (avatars s) (myPlayerId s) (myPlayer s) (imageCache s)
    (pressedKeys s) (lastSentDirection s) (isMoving s) (cameraX s)
    (cameraY s) (socket s) (suspended s) v.

(** ** Heap and trace *)

(** [obj.f = v] on the object at [l]. *)
Definition set_x (v : Z) (p : Player) : Player :=
  mkPlayer (id p) v (y p) (facing p) (animationFrame p) (username p) (avatar p).

Definition set_y (v : Z) (p : Player) : Player :=
  mkPlayer (id p) (x p) v (facing p) (animationFrame p) (username p) (avatar p).

Definition set_facing (v : option string) (p : Player) : Player :=
  mkPlayer (id p) (x p) (y p) v (animationFrame p) (username p) (avatar p).

Definition update_object (l : loc) (f : Player -> Player) (s : GameClient)
  : GameClient :=
  set_heap (alter f l (heap s)) s.

(** The object behind [this.myPlayer], if there is one. *)
Definition my_player (s : GameClient) : option Player :=
  l ← myPlayer s; heap s !! l.

(** The object stored in [this.players] under the controlled player's id:
    what a render pass paints for the controlled player. *)
Definition store_player (s : GameClient) : option Player :=
  i ← myPlayerId s; l ← players s !! i; heap s !! l.

Definition position (p : Player) : Z * Z := (x p, y p).

Definition log (e : Effect) (s : GameClient) : GameClient :=
  set_trace (trace s ++ [(e, position <$> store_player s)]) s.

(** [this.myPlayer] is the very object stored under [this.myPlayerId]. *)
Definition aliased (s : GameClient) : Prop :=
  exists i l, myPlayerId s = Some i /\ myPlayer s = Some l /\
              players s !! i = Some l /\ is_Some (heap s !! l).

(** ** Property keys in enumeration order *)

Definition digit (c : Ascii.ascii) : option N :=
  let n := Ascii.N_of_ascii c in
  if (48 <=? n)%N && (n <=? 57)%N then Some (n - 48)%N else None.

Fixpoint digits (k : string) (acc : N) : option N :=
  match k with
  | EmptyString => Some acc
  | String c rest => d ← digit c; digits rest (10 * acc + d)%N
  end.

(** The number a property key denotes when it is an array index: a
    decimal numeral without leading zero, below 2^32 - 1. *)
Definition array_index (k : string) : option N :=
  match k with
  | EmptyString => None
  | String c _ =>
      n ← digits k 0;
      if (String.eqb k "0" || negb (Ascii.N_of_ascii c =? 48)%N)
         && (n <? 4294967295)%N
      then Some n else None
  end.

Fixpoint insert_index (n : N) (k : string) (ks : list string) : list string :=
  match ks with
  | [] => [k]
  | k' :: rest =>
      match array_index k' with
      | Some n' => if (n' <? n)%N then k' :: insert_index n k rest
                   else k :: ks
      | None => k :: ks
      end
  end.

(** The keys after [obj[k] = v]: an existing key keeps its place, a new
    array index goes among the array indices, any other new key goes
    last. *)
Definition add_key (k : string) (ks : list string) : list string :=
  if existsb (String.eqb k) ks then ks
  else match array_index k with
       | Some n => insert_index n k ks
       | None => ks ++ [k]
       end.

(** The keys after [delete obj[k]]. *)
Definition remove_key (k : string) (ks : list string) : list string :=
  List.filter (fun k' => negb (String.eqb k' k)) ks.

(** ** Camera *)

Definition Math_max (a b : Q) : Q := Qmax a b.
Definition Math_min (a b : Q) : Q := Qmin a b.

Definition updateCamera (s : GameClient) : GameClient :=
  match my_player s with
  | None => s
  | Some p =>
      let cx := (inject_Z (x p) - inject_Z (canvasWidth s) / 2)%Q in
      let cy := (inject_Z (y p) - inject_Z (canvasHeight s) / 2)%Q in
      let s1 := set_cameraY cy (set_cameraX cx s) in
      let s2 :=
        set_cameraX
          (Math_max 0 (Math_min (cameraX s1)
                                (inject_Z (worldWidth - canvasWidth s1)))) s1 in
      set_cameraY
        (Math_max 0 (Math_min (cameraY s2)
                              (inject_Z (worldHeight - canvasHeight s2)))) s2
  end.

Definition worldToScreen (worldX worldY : Z) (s : GameClient) : Q * Q :=
  ((inject_Z worldX - cameraX s)%Q, (inject_Z worldY - cameraY s)%Q).

(** ** Avatar resolution and the image cache *)

(** [player.facing || 'south']: an absent or empty facing is falsy. *)
Definition direction_of (player : Player) : string :=
  match facing player with
  | Some f => if String.eqb f "" then "south" else f
  | None => "south"
  end.

(** [player.animationFrame || 0]. *)
Definition frame_of (player : Player) : N :=
  default 0%N (animationFrame player).

Definition shouldFlip (direction : string) : bool :=
  String.eqb direction "left" || String.eqb direction "west".

Definition actualDirection (direction : string) : string :=
  if String.eqb direction "left" || String.eqb direction "west"
  then "east" else direction.

(** [avatar.frames[actualDirection]?.[frame]], [None] when it is falsy. *)
Definition frameData (av : Avatar) (actualDir : string) (frame : N)
  : option string :=
  fs ← frames av !! actualDir;
  fd ← fs !! N.to_nat frame;
  if String.eqb fd "" then None else Some fd.

Definition cacheKey (player : Player) (direction : string) (frame : N)
  : string :=
  avatar player +:+ "_" +:+ direction +:+ "_" +:+ pretty frame.

(** The part of [renderAvatar] after the cache is known to hold the key:
    viewport check and drawing.  The sprite geometry is not modelled. *)
Definition renderAvatar_draw (key : string) (l : loc) (flip : bool)
  (s : GameClient) : GameClient :=
  match imageCache s !! key, heap s !! l with
  | Some img, Some player =>
      let screenPos := worldToScreen (x player) (y player) s in
      let lt a b := negb (Qle_bool b a) in
      if lt screenPos.1 (-50)%Q
         || lt (inject_Z (canvasWidth s) + 50)%Q screenPos.1
         || lt screenPos.2 (-50)%Q
         || lt (inject_Z (canvasHeight s) + 50)%Q screenPos.2
      then s
      else log (DrewAvatar key img flip) s
  | _, _ => s
  end.

(** [loadAvatarImage]: a new image starts loading. *)
Definition loadAvatarImage (key frame_data : string) (s : GameClient)
  : GameClient :=
  log (LoadStarted key frame_data) s.

(** [renderAvatar] up to its [await], or to its end when the image is
    cached. *)
Definition renderAvatar (l : loc) (s : GameClient) : GameClient :=
  match heap s !! l with
  | None => s
  | Some player =>
      match avatars s !! avatar player with
      | None => s
      | Some av =>
          let direction := direction_of player in
          let frame := frame_of player in
          match frameData av (actualDirection direction) frame with
          | None => s
          | Some fd =>
              let key := cacheKey player direction frame in
              match imageCache s !! key with
              | None =>
                  let s1 := loadAvatarImage key fd s in
                  set_suspended
                    (suspended s1 ++
                       [mkSuspended key fd l (shouldFlip direction)]) s1
              | Some _ =>
                  renderAvatar_draw key l (shouldFlip direction) s
              end
          end
      end
  end.

(** The load of the [i]-th suspended call completes with an image of
    size [w] x [h]: the call resumes after its [await]. *)
Definition renderAvatar_resume (i : nat) (w h : Z) (s : GameClient)
  : GameClient :=
  match suspended s !! i with
  | None => s
  | Some k =>
      let img := mkImage (sus_data k) w h in
      let s1 := set_suspended (delete i (suspended s)) s in
      let s2 := set_imageCache (<[sus_key k := img]> (imageCache s1)) s1 in
      renderAvatar_draw (sus_key k) (sus_player k) (sus_flip k) s2
  end.

(** ** Painting *)

(** The player of the first iteration of
    [for (const playerId in this.players)]. *)
Definition first_player (s : GameClient) : option loc :=
  k ← head (playerKeys s); players s !! k.

(** [render] up to its first [await]: camera update, clear and world
    image, and the call of [renderAvatar] for the first player.  The
    later iterations of the loop run after the handler has returned; they
    are the [ev_renderAvatar] events below. *)
Definition render (s : GameClient) : GameClient :=
  if negb (worldImage s) then s
  else
    let s1 := updateCamera s in
    let s2 := log (Painted (cameraX s1) (cameraY s1)) s1 in
    match first_player s2 with
    | Some l => renderAvatar l s2
    | None => s2
    end.

(** ** Movement prediction and outbound messages *)

Definition arrowKeys : list string :=
  ["ArrowUp"; "ArrowDown"; "ArrowLeft"; "ArrowRight"].

Definition keyMap : list (string * string) :=
  [("ArrowUp", "up"); ("ArrowDown", "down");
   ("ArrowLeft", "left"); ("ArrowRight", "right")].

(** [obj[k]] on an object given by its properties in order. *)
Fixpoint get_property {A} (k : string) (obj : list (string * A)) : option A :=
  match obj with
  | [] => None
  | (k', v) :: rest => if String.eqb k k' then Some v else get_property k rest
  end.

(** [obj[k] = v]: an existing property keeps its place, a new one goes
    last. *)
Fixpoint set_property {A} (k : string) (v : A) (obj : list (string * A))
  : list (string * A) :=
  match obj with
  | [] => [(k, v)]
  | (k', v') :: rest =>
      if String.eqb k k' then (k', v) :: rest
      else (k', v') :: set_property k v rest
  end.

(** [keyMap[keyCode]] for the key codes that reach it: both key handlers
    pass one of the four arrow keys.  The properties that [keyMap]
    inherits from [Object.prototype] are not modelled. *)
Definition keyCodeToDirection (keyCode : string) : option string :=
  get_property keyCode keyMap.

Definition moveSpeed : Z := 16.

Definition socket_open (s : GameClient) : bool :=
  match socket s with
  | Some OPEN => true
  | _ => false
  end.

Definition socket_send (m : OutMsg) (s : GameClient) : GameClient :=
  log (Sent m) s.

Definition calculateNewPosition (direction : string) (s : GameClient)
  : Z * Z :=
  match my_player s with
  | None => (0, 0)
  | Some p =>
      let newX := x p in
      let newY := y p in
      if String.eqb direction "up" then (newX, Z.max 0 (y p - moveSpeed))
      else if String.eqb direction "down"
           then (newX, Z.min worldHeight (y p + moveSpeed))
      else if String.eqb direction "left"
           then (Z.max 0 (x p - moveSpeed), newY)
      else if String.eqb direction "right"
           then (Z.min worldWidth (x p + moveSpeed), newY)
      else (newX, newY)
  end.

(** The assignment made by the [switch] of [updateMyPosition]. *)
Definition applyMove (direction : string) (p : Player) : Player :=
  if String.eqb direction "up" then set_y (Z.max 0 (y p - moveSpeed)) p
  else if String.eqb direction "down"
       then set_y (Z.min worldHeight (y p + moveSpeed)) p
  else if String.eqb direction "left"
       then set_x (Z.max 0 (x p - moveSpeed)) p
  else if String.eqb direction "right"
       then set_x (Z.min worldWidth (x p + moveSpeed)) p
  else p.

Definition updateMyPosition (direction : string) (s : GameClient)
  : GameClient :=
  match myPlayer s with
  | None => s
  | Some l => render (update_object l (applyMove direction) s)
  end.

Definition sendMoveCommand (keyCode : string) (s : GameClient) : GameClient :=
  if negb (socket_open s) then s
  else
    match keyCodeToDirection keyCode with
    | None => s
    | Some direction =>
        let s1 :=
          match myPlayer s with
          | Some l => update_object l (set_facing (Some direction)) s
          | None => s
          end in
        let newPosition := calculateNewPosition direction s1 in
        let moveMessage := move (fst newPosition) (snd newPosition) in
        let s2 := socket_send moveMessage s1 in
        let s3 := set_lastSentDirection (Some direction) s2 in
        let s4 := set_isMoving true s3 in
        updateMyPosition direction s4
    end.

Definition sendStopCommand (s : GameClient) : GameClient :=
  if negb (socket_open s) then s
  else
    let s1 := socket_send stop s in
    let s2 := set_lastSentDirection None s1 in
    set_isMoving false s2.

(** The [for ... of Object.entries(this.pressedKeys)] loop with its
    [break]. *)
Fixpoint sendMoveCommandForPressedKeys_loop
  (entries : list (string * bool)) (s : GameClient) : GameClient :=
  match entries with
  | [] => s
  | (keyCode, isPressed) :: rest =>
      if isPressed then sendMoveCommand keyCode s
      else sendMoveCommandForPressedKeys_loop rest s
  end.

Definition sendMoveCommandForPressedKeys (s : GameClient) : GameClient :=
  sendMoveCommandForPressedKeys_loop (pressedKeys s) s.

(** ** Input *)

Definition includes (k : string) (l : list string) : bool :=
  existsb (String.eqb k) l.

Definition is_pressed (k : string) (s : GameClient) : bool :=
  default false (get_property k (pressedKeys s)).

Definition handleKeyDown (code : string) (s : GameClient) : GameClient :=
  if negb (includes code arrowKeys) then s
  else if is_pressed code s then s
  else
    let s1 := set_pressedKeys (set_property code true (pressedKeys s)) s in
    sendMoveCommand code s1.

Definition handleKeyUp (code : string) (s : GameClient) : GameClient :=
  if negb (includes code arrowKeys) then s
  else
    let s1 := set_pressedKeys (set_property code false (pressedKeys s)) s in
    let anyKeyPressed := existsb snd (pressedKeys s1) in
    if negb anyKeyPressed then sendStopCommand s1
    else sendMoveCommandForPressedKeys s1.

(** ** Inbound messages *)

(** [JSON.parse] of an object of players: every value becomes a fresh
    object, and the parsed object maps each key to the object of its last
    occurrence. *)
Definition parse_entry (acc : list Player * gmap string loc)
  (kv : string * Player) : list Player * gmap string loc :=
  (acc.1 ++ [kv.2], <[kv.1 := length acc.1]> acc.2).

Definition parse_object (kvs : list (string * Player)) (h : list Player)
  : list Player * gmap string loc :=
  foldl parse_entry (h, ∅) kvs.

(** The value a JSON object text gives to a key. *)
Fixpoint wire_get (k : string) (kvs : list (string * Player))
  : option Player :=
  match kvs with
  | [] => None
  | (k', v) :: rest =>
      match wire_get k rest with
      | Some v' => Some v'
      | None => if String.eqb k k' then Some v else None
      end
  end.

(** The keys of the parsed object, in enumeration order. *)
Definition parse_keys (kvs : list (string * Player)) : list string :=
  foldl (fun ks kv => add_key kv.1 ks) [] kvs.

Definition JSON_parse (data : WireMessage) (h : list Player)
  : list Player * ParsedMessage :=
  match data with
  | in_join_game success playerId kvs avs error =>
      let r := parse_object kvs h in
      (r.1, in_join_game success playerId (parse_keys kvs, r.2) avs error)
  | in_player_joined p av => (h ++ [p], in_player_joined (length h) av)
  | in_players_moved kvs =>
      let r := parse_object kvs h in
      (r.1, in_players_moved (parse_keys kvs, r.2))
  | in_player_left playerId => (h, in_player_left playerId)
  | in_move success error => (h, in_move success error)
  | in_stop success error => (h, in_stop success error)
  | in_unknown action => (h, in_unknown action)
  end.

(** [Object.assign(target, source)] on objects that map ids to
    references. *)
Definition Object_assign (target source : gmap string loc)
  : gmap string loc :=
  source ∪ target.

(** The keys of the target after [Object.assign]: the source's keys are
    assigned one by one, in the source's enumeration order. *)
Definition Object_assign_keys (target source : list string) : list string :=
  foldl (fun ks k => add_key k ks) target source.

Definition handleServerMessage (message : ParsedMessage) (s : GameClient)
  : GameClient :=
  let s' :=
    match message with
    | in_join_game success playerId msg_players msg_avatars _ =>
        if success then
          let s1 := set_myPlayerId (Some playerId) s in
          let s2 := set_playerKeys msg_players.1
                      (set_players msg_players.2 s1) in
          let s3 := set_avatars msg_avatars s2 in
          let s4 := set_myPlayer (i ← myPlayerId s3; players s3 !! i) s3 in
          updateCamera s4
        else s
    | in_player_joined l av =>
        match heap s !! l with
        | Some p =>
            let s1 := set_playerKeys (add_key (id p) (playerKeys s))
                        (set_players (<[id p := l]> (players s)) s) in
            set_avatars (<[name av := av]> (avatars s1)) s1
        | None => s
        end
    | in_players_moved msg_players =>
        set_playerKeys (Object_assign_keys (playerKeys s) msg_players.1)
          (set_players (Object_assign (players s) msg_players.2) s)
    | in_player_left playerId =>
        set_playerKeys (remove_key playerId (playerKeys s))
          (set_players (delete playerId (players s)) s)
    | in_move _ _ => s
    | in_stop _ _ => s
    | in_unknown _ => s
    end in
  render s'.

(** [socket.onmessage]. *)
Definition onmessage (data : WireMessage) (s : GameClient) : GameClient :=
  let r := JSON_parse data (heap s) in
  handleServerMessage r.2 (set_heap r.1 s).

Definition joinGame (s : GameClient) : GameClient :=
  socket_send (join_game "Jadon") s.

(** [socket.onopen]: the socket is open by then. *)
Definition onopen (s : GameClient) : GameClient :=
  joinGame (set_socket (Some OPEN) s).

Definition onclose (s : GameClient) : GameClient :=
  set_socket (Some CLOSED) s.

(** ** The event loop *)

Inductive Event :=
  | ev_keydown (code : string)
  | ev_keyup (code : string)
  | ev_open
  | ev_close
  | ev_message (data : WireMessage)
  | ev_resize (innerWidth innerHeight : Z)
  | ev_worldLoaded
  | ev_renderAvatar (l : loc)
  | ev_imageLoaded (i : nat) (w h : Z).

Definition step (s : GameClient) (e : Event) : GameClient :=
  match e with
  | ev_keydown code => handleKeyDown code s
  | ev_keyup code => handleKeyUp code s
  | ev_open => onopen s
  | ev_close => onclose s
  | ev_message data => onmessage data s
  | ev_resize w h =>
      render (updateCamera (set_canvasHeight h (set_canvasWidth w s)))
  | ev_worldLoaded => render s
  | ev_renderAvatar l => renderAvatar l s
  | ev_imageLoaded i w h => renderAvatar_resume i w h s
  end.

Definition run (s : GameClient) (es : list Event) : GameClient :=
  foldl step s es.

(** The state after the constructor and [init], in a window of the given
    size: the world image object exists and the socket is connecting. *)
Definition initial (innerWidth innerHeight : Z) : GameClient :=
  mkGameClient innerWidth innerHeight true [] ∅ [] ∅ None None ∅
    [("ArrowUp", false); ("ArrowDown", false);
     ("ArrowLeft", false); ("ArrowRight", false)]
    None false 0%Q 0%Q (Some CONNECTING) [] [].

(** How many loads the trace shows for a cache key. *)
Definition is_load_of (key : string) (o : Effect * option (Z * Z)) : bool :=
  match o.1 with
  | LoadStarted k _ => String.eqb k key
  | _ => false
  end.

Definition loads_started (key : string) (s : GameClient) : nat :=
  length (List.filter (is_load_of key) (trace s)).

(** ** Notions used by the statements *)

(** The entry of [this.players] under an id, as a value. *)
Definition entry (k : string) (s : GameClient) : option Player :=
  l ← players s !! k; heap s !! l.

(** The effects between a state and a later one, and the messages among
    them. *)
Definition effects_since (s s' : GameClient) : list (Effect * option (Z * Z)) :=
  drop (length (trace s)) (trace s').

Definition message_of (o : Effect * option (Z * Z)) : option OutMsg :=
  match o.1 with
  | Sent m => Some m
  | _ => None
  end.

Definition sent_since (s s' : GameClient) : list OutMsg :=
  omap message_of (effects_since s s').

(** The effects of a call of [renderAvatar]. *)
Definition avatar_effect (e : Effect) : Prop :=
  match e with
  | LoadStarted _ _ | DrewAvatar _ _ _ => True
  | _ => False
  end.

(** What the first call of [renderAvatar] in a render pass may add to the
    trace: at most one effect, of the avatar kind, seeing the store
    position [snap]. *)
Definition first_avatar_effects (snap : option (Z * Z))
  (new : list (Effect * option (Z * Z))) : Prop :=
  (length new <= 1)%nat /\
  Forall (fun o => avatar_effect o.1 /\ o.2 = snap) new.

(** A position inside the world rectangle. *)
Definition in_world (p : Player) : Prop :=
  (0 <= x p <= worldWidth)%Z /\ (0 <= y p <= worldHeight)%Z.

(** [this.pressedKeys] with its four properties in the order of the
    constructor. *)
Definition keys (up down left right : bool) : list (string * bool) :=
  [("ArrowUp", up); ("ArrowDown", down);
   ("ArrowLeft", left); ("ArrowRight", right)].

(** The specification's reading of the tie-break: the directions in the
    fixed order up, down, left, right, and those of them whose key is
    held. *)
Definition enumeration_order : list string := ["up"; "down"; "left"; "right"].

Definition key_of_direction (direction : string) : string :=
  if String.eqb direction "up" then "ArrowUp"
  else if String.eqb direction "down" then "ArrowDown"
  else if String.eqb direction "left" then "ArrowLeft"
  else "ArrowRight".

Definition held_directions (s : GameClient) : list string :=
  List.filter (fun d => is_pressed (key_of_direction d) s) enumeration_order.

(** The claim that the prediction is in the store when the move message
    leaves: every move message sent between [s] and [s'] was sent at an
    instant at which the store already showed the position it shows in
    [s']. *)
Definition update_precedes_send (s s' : GameClient) : Prop :=
  forall mx my seen,
    (Sent (move mx my), seen) ∈ effects_since s s' ->
    seen = position <$> store_player s'.

(** The viewport of the camera lies inside the world rectangle. *)
Definition viewport_inside_world (s : GameClient) : Prop :=
  (0 <= cameraX s /\ cameraX s + inject_Z (canvasWidth s) <= inject_Z worldWidth)%Q /\
  (0 <= cameraY s /\ cameraY s + inject_Z (canvasHeight s) <= inject_Z worldHeight)%Q.

(** A step that neither touches the image cache nor starts a load. *)
Definition quiet (s s' : GameClient) : Prop :=
  imageCache s' = imageCache s /\
  forall key, loads_started key s' = loads_started key s.

(** A step that keeps a cached key cached and starts no load for it. *)
Definition keeps_cached (key : string) (s s' : GameClient) : Prop :=
  is_Some (imageCache s !! key) ->
  is_Some (imageCache s' !! key) /\
  loads_started key s' = loads_started key s.

(** The claim that a cache key sees at most one load. *)
Definition single_load (key : string) (s : GameClient) : Prop :=
  (loads_started key s <= 1)%nat.

(** ** A concrete session *)

Definition hero : Avatar :=
  mkAvatar "hero" {[ "south" := ["s0"; "s1"]; "east" := ["e0"; "e1"];
                     "north" := ["n0"; "n1"] ]}.

Definition p1 : Player := mkPlayer "p1" 100 100 None None "Jadon" "hero".
Definition p2 : Player := mkPlayer "p2" 300 260 (Some "east") None "Robin" "hero".

Definition join_ok : WireMessage :=
  in_join_game true "p1" [("p1", p1); ("p2", p2)] {[ "hero" := hero ]} "".

(** Connected, not yet joined. *)
Definition connected : GameClient := run (initial 800 600) [ev_open].

(** Joined as "p1" at (100,100). *)
Definition joined : GameClient := run connected [ev_message join_ok].

(** The example session after an inbound [players_moved] that carries the
    controlled player's own id, at (200,100). *)
Definition echoed : GameClient :=
  run joined [ev_message (in_players_moved [("p1", set_x 200 p1)])].

(** Joined as "p1" at (100,5), close to the upper edge. *)
Definition near_top : GameClient :=
  run connected
    [ev_message
       (in_join_game true "p1" [("p1", set_y 5 p1)] {[ "hero" := hero ]} "")].

(** Joined at the far world corner (worldWidth, worldHeight). *)
Definition at_corner : GameClient :=
  run connected
    [ev_message
       (in_join_game true "p1" [("p1", set_y 2048 (set_x 2048 p1))]
          {[ "hero" := hero ]} "")].

(** The example session in a window of 2560 x 1440, wider than the world. *)
Definition wide : GameClient :=
  run (initial 2560 1440) [ev_open; ev_message join_ok].

(** ** Invariants of the client state *)

(** A view of the state that an assignment to one field does not change. *)
Definition ignores {A B : Type} (proj : GameClient -> A)
  (set : B -> GameClient -> GameClient) : Prop :=
  forall v s, proj (set v s) = proj s.

(** [this.pressedKeys] has exactly the four arrow keys, in the order of the
    constructor. *)
Definition keys_shape (s : GameClient) : Prop :=
  map fst (pressedKeys s) = arrowKeys.

(** [playerKeys] lists exactly the ids that [this.players] has, each
    once: the keys over which [for ... in] runs. *)
Definition keys_agree (s : GameClient) : Prop :=
  NoDup (playerKeys s) /\
  forall k, k ∈ playerKeys s <-> is_Some (players s !! k).

(** [this.isMoving] is set exactly when a direction was sent last. *)
Definition moving_consistent (s : GameClient) : Prop :=
  isMoving s = match lastSentDirection s with
               | Some _ => true
               | None => false
               end.

(** The trace of [s'] is the trace of [s] followed by effects that all
    satisfy [P]. *)
Definition appends (P : Effect -> Prop) (s s' : GameClient) : Prop :=
  exists new, trace s' = trace s ++ new /\ Forall (fun o => P o.1) new.

Definition not_sent (e : Effect) : Prop :=
  match e with
  | Sent _ => False
  | _ => True
  end.

(** All messages sent so far. *)
Definition sent (s : GameClient) : list OutMsg := omap message_of (trace s).

(** The join request comes first: nothing was sent and the channel is not
    open, or the first message sent was the join request. *)
Definition join_first (s : GameClient) : Prop :=
  (sent s = [] /\ socket_open s = false) \/
  (exists rest, sent s = join_game "Jadon" :: rest).

(** No condition on an effect. *)
Definition anything (e : Effect) : Prop := True.

(** Joined in the middle of the world, at (1000,1000). *)
Definition in_middle : GameClient :=
  run connected
    [ev_message
       (in_join_game true "p1" [("p1", set_y 1000 (set_x 1000 p1))]
          {[ "hero" := hero ]} "")].

(** The camera offset is the one [updateCamera] computes from the current
    state. *)
Definition camera_synced (s : GameClient) : Prop := updateCamera s = s.

(** Every cached image and every suspended call goes back to a load that
    was started for its key and its frame data. *)
Definition load_logged (key data : string) (s : GameClient) : Prop :=
  exists snap, (LoadStarted key data, snap) ∈ trace s.

Definition cache_justified (s : GameClient) : Prop :=
  (forall key img, imageCache s !! key = Some img ->
                   load_logged key (src img) s) /\
  (forall k, k ∈ suspended s -> load_logged (sus_key k) (sus_data k) s).

(** An event that does not put anything under the controlled player's id
    [i], nor removes it; a successful join must have the assigned id in
    its player table. *)
Definition keeps_alias (i : string) (e : Event) : Prop :=
  match e with
  | ev_message (in_join_game true pid kvs _ _) => is_Some (wire_get pid kvs)
  | ev_message (in_player_joined p _) => id p <> i
  | ev_message (in_players_moved kvs) => wire_get i kvs = None
  | ev_message (in_player_left pid) => pid <> i
  | _ => True
  end.

(** * Properties *)

(** The session of the specification: joined as "p1" at (100,100),
    pressing "ArrowRight" moves to (116,100) facing right and sends
    [move 116 100]; releasing it sends [stop] and leaves the position. *)
Example press_and_release_right :
  let pressed := step joined (ev_keydown "ArrowRight") in
  let released := step pressed (ev_keyup "ArrowRight") in
  store_player pressed = Some (set_facing (Some "right") (set_x 116 p1)) /\
  sent_since joined pressed = [move 116 100] /\
  sent_since pressed released = [stop] /\
  store_player released = store_player pressed.
Proof. repeat split. Qed.

(** ** Footprints

    Each handler assigns to a fixed set of fields; any view of the state
    that ignores those assignments is the same before and after. *)

Section Footprint.
Context {A : Type} (proj : GameClient -> A).

Lemma footprint_log e s :
  ignores proj set_trace -> proj (log e s) = proj s.
Proof. intros Ht. apply Ht. Qed.

Lemma footprint_updateCamera s :
  ignores proj set_cameraX -> ignores proj set_cameraY ->
  proj (updateCamera s) = proj s.
Proof.
  intros Hx Hy. unfold updateCamera. destruct (my_player s); [|reflexivity].
  by rewrite Hy, Hx, Hy, Hx.
Qed.

Lemma footprint_renderAvatar_draw key l flip s :
  ignores proj set_trace -> proj (renderAvatar_draw key l flip s) = proj s.
Proof.
  intros Ht. unfold renderAvatar_draw.
  destruct (imageCache s !! key), (heap s !! l); try reflexivity.
  match goal with |- context [if ?b then _ else _] => destruct b end;
    [reflexivity | by apply footprint_log].
Qed.

Lemma footprint_renderAvatar l s :
  ignores proj set_trace -> ignores proj set_suspended ->
  proj (renderAvatar l s) = proj s.
Proof.
  intros Ht Hs. unfold renderAvatar.
  destruct (heap s !! l) as [player|]; [|reflexivity].
  destruct (avatars s !! avatar player) as [av|]; [|reflexivity].
  destruct (frameData _ _ _); [|reflexivity].
  destruct (imageCache s !! _).
  - by apply footprint_renderAvatar_draw.
  - rewrite Hs. unfold loadAvatarImage. by apply footprint_log.
Qed.

Lemma footprint_renderAvatar_resume i w h s :
  ignores proj set_trace -> ignores proj set_suspended ->
  ignores proj set_imageCache ->
  proj (renderAvatar_resume i w h s) = proj s.
Proof.
  intros Ht Hs Hc. unfold renderAvatar_resume.
  destruct (suspended s !! i); [|reflexivity].
  rewrite footprint_renderAvatar_draw by assumption. by rewrite Hc, Hs.
Qed.

Lemma footprint_render s :
  ignores proj set_trace -> ignores proj set_suspended ->
  ignores proj set_cameraX -> ignores proj set_cameraY ->
  proj (render s) = proj s.
Proof.
  intros Ht Hs Hx Hy. unfold render. destruct (worldImage s); [|reflexivity].
  simpl.
  assert (Hpaint : proj (log (Painted (cameraX (updateCamera s))
                                      (cameraY (updateCamera s)))
                           (updateCamera s)) = proj s)
    by (by rewrite footprint_log, footprint_updateCamera).
  destruct (first_player _); [|exact Hpaint].
  by rewrite footprint_renderAvatar.
Qed.

Lemma footprint_updateMyPosition d s :
  ignores proj set_heap -> ignores proj set_trace ->
  ignores proj set_suspended ->
  ignores proj set_cameraX -> ignores proj set_cameraY ->
  proj (updateMyPosition d s) = proj s.
Proof.
  intros Hh Ht Hs Hx Hy. unfold updateMyPosition.
  destruct (myPlayer s); [|reflexivity].
  rewrite footprint_render by assumption. apply Hh.
Qed.

Lemma footprint_sendMoveCommand k s :
  ignores proj set_heap -> ignores proj set_trace ->
  ignores proj set_suspended ->
  ignores proj set_lastSentDirection -> ignores proj set_isMoving ->
  ignores proj set_cameraX -> ignores proj set_cameraY ->
  proj (sendMoveCommand k s) = proj s.
Proof.
  intros Hh Ht Hs Hl Hm Hx Hy. unfold sendMoveCommand.
  destruct (socket_open s); [|reflexivity]. simpl.
  destruct (keyCodeToDirection k); [|reflexivity].
  rewrite footprint_updateMyPosition by assumption.
  rewrite Hm, Hl. unfold socket_send. rewrite footprint_log by assumption.
  destruct (myPlayer s); [apply Hh | reflexivity].
Qed.

Lemma footprint_sendStopCommand s :
  ignores proj set_trace -> ignores proj set_lastSentDirection ->
  ignores proj set_isMoving -> proj (sendStopCommand s) = proj s.
Proof.
  intros Ht Hl Hm. unfold sendStopCommand.
  destruct (socket_open s); [|reflexivity]. simpl.
  rewrite Hm, Hl. by apply footprint_log.
Qed.

Lemma footprint_sendMoveCommandForPressedKeys s :
  ignores proj set_heap -> ignores proj set_trace ->
  ignores proj set_suspended ->
  ignores proj set_lastSentDirection -> ignores proj set_isMoving ->
  ignores proj set_cameraX -> ignores proj set_cameraY ->
  proj (sendMoveCommandForPressedKeys s) = proj s.
Proof.
  intros Hh Ht Hs Hl Hm Hx Hy. unfold sendMoveCommandForPressedKeys.
  induction (pressedKeys s) as [|[k b] rest IH]; [reflexivity|]. simpl.
  destruct b; [by apply footprint_sendMoveCommand | exact IH].
Qed.

Lemma footprint_handleKeyDown code s :
  ignores proj set_pressedKeys ->
  ignores proj set_heap -> ignores proj set_trace ->
  ignores proj set_suspended ->
  ignores proj set_lastSentDirection -> ignores proj set_isMoving ->
  ignores proj set_cameraX -> ignores proj set_cameraY ->
  proj (handleKeyDown code s) = proj s.
Proof.
  intros Hk Hh Ht Hs Hl Hm Hx Hy. unfold handleKeyDown.
  destruct (includes code arrowKeys); [|reflexivity]. simpl.
  destruct (is_pressed code s); [reflexivity|].
  rewrite footprint_sendMoveCommand by assumption. apply Hk.
Qed.

Lemma footprint_handleKeyUp code s :
  ignores proj set_pressedKeys ->
  ignores proj set_heap -> ignores proj set_trace ->
  ignores proj set_suspended ->
  ignores proj set_lastSentDirection -> ignores proj set_isMoving ->
  ignores proj set_cameraX -> ignores proj set_cameraY ->
  proj (handleKeyUp code s) = proj s.
Proof.
  intros Hk Hh Ht Hs Hl Hm Hx Hy. unfold handleKeyUp.
  destruct (includes code arrowKeys); [|reflexivity]. simpl.
  match goal with |- context [negb ?b] => destruct b end; simpl.
  - rewrite footprint_sendMoveCommandForPressedKeys by assumption. apply Hk.
  - rewrite footprint_sendStopCommand by assumption. apply Hk.
Qed.

Lemma footprint_onmessage data s :
  ignores proj set_heap -> ignores proj set_players ->
  ignores proj set_playerKeys ->
  ignores proj set_avatars -> ignores proj set_myPlayerId ->
  ignores proj set_myPlayer -> ignores proj set_trace ->
  ignores proj set_suspended ->
  ignores proj set_cameraX -> ignores proj set_cameraY ->
  proj (onmessage data s) = proj s.
Proof.
  intros Hh Hp Hk Ha Hi Hm Ht Hs Hx Hy. unfold onmessage, handleServerMessage.
  rewrite footprint_render by assumption.
  destruct data as [ok pid kvs avs err|p av|kvs|pid|ok err|ok err|act];
    simpl.
  - destruct ok; [|apply Hh].
    rewrite footprint_updateCamera by assumption.
    by rewrite Hm, Ha, Hk, Hp, Hi, Hh.
  - rewrite lookup_app_r by lia. rewrite Nat.sub_diag. simpl.
    by rewrite Ha, Hk, Hp, Hh.
  - by rewrite Hk, Hp, Hh.
  - by rewrite Hk, Hp, Hh.
  - apply Hh.
  - apply Hh.
  - apply Hh.
Qed.
End Footprint.

(** Discharges the side conditions of a footprint lemma for a field that
    the handler does not assign. *)
Ltac untouched := intros ? ?; reflexivity.

(** ** What painting leaves alone *)

Lemma updateCamera_frame s :
  heap (updateCamera s) = heap s /\ players (updateCamera s) = players s /\
  myPlayer (updateCamera s) = myPlayer s /\
  myPlayerId (updateCamera s) = myPlayerId s /\
  trace (updateCamera s) = trace s /\
  imageCache (updateCamera s) = imageCache s /\
  socket (updateCamera s) = socket s.
Proof. unfold updateCamera. destruct (my_player s); repeat split. Qed.

Lemma render_frame s :
  heap (render s) = heap s /\ players (render s) = players s /\
  myPlayer (render s) = myPlayer s /\ myPlayerId (render s) = myPlayerId s /\
  imageCache (render s) = imageCache s /\ socket (render s) = socket s.
Proof. repeat split; apply footprint_render; untouched. Qed.

Lemma entry_render k s : entry k (render s) = entry k s.
Proof.
  unfold entry. destruct (render_frame s) as (-> & -> & _). reflexivity.
Qed.

Lemma store_player_render s : store_player (render s) = store_player s.
Proof.
  unfold store_player.
  destruct (render_frame s) as (-> & -> & _ & -> & _). reflexivity.
Qed.

(** ** Parsing a players object *)

Lemma parse_fold (kvs : list (string * Player)) :
  forall (h : list Player) (m : gmap string loc),
    let r := foldl parse_entry (h, m) kvs in
    (forall l q, h !! l = Some q -> r.1 !! l = Some q) /\
    (forall k,
        match wire_get k kvs with
        | Some p => exists l, r.2 !! k = Some l /\ r.1 !! l = Some p
        | None => r.2 !! k = m !! k
        end).
Proof.
  induction kvs as [|[k' v] rest IH]; intros h m; simpl.
  - split; [auto | reflexivity].
  - change (parse_entry (h, m) (k', v))
      with (h ++ [v], <[k' := length h]> m).
    destruct (IH (h ++ [v]) (<[k' := length h]> m)) as [Hkeep Hget].
    split.
    + intros l q Hl. apply Hkeep. by apply lookup_app_l_Some.
    + intros k. specialize (Hget k).
      destruct (wire_get k rest) as [p|]; [exact Hget|].
      destruct (String.eqb_spec k k') as [->|Hne].
      * exists (length h). rewrite Hget, lookup_insert_eq. split; [done|].
        apply Hkeep. rewrite lookup_app_r by lia.
        by rewrite Nat.sub_diag.
      * rewrite Hget. by rewrite lookup_insert_ne.
Qed.

Lemma parse_object_spec (kvs : list (string * Player)) (h : list Player) :
  (forall l q, h !! l = Some q -> (parse_object kvs h).1 !! l = Some q) /\
  (forall k,
      match wire_get k kvs with
      | Some p => exists l, (parse_object kvs h).2 !! k = Some l /\
                            (parse_object kvs h).1 !! l = Some p
      | None => (parse_object kvs h).2 !! k = None
      end).
Proof.
  destruct (parse_fold kvs h ∅) as [Hkeep Hget]. split; [exact Hkeep|].
  intros k. specialize (Hget k). destruct (wire_get k kvs); [exact Hget|].
  unfold parse_object. rewrite Hget. apply lookup_empty.
Qed.

(** ** Inbound [players_moved] *)

Lemma onmessage_players_moved_store kvs s :
  let s' := onmessage (in_players_moved kvs) s in
  heap s' = (parse_object kvs (heap s)).1 /\
  players s' = Object_assign (players s) (parse_object kvs (heap s)).2 /\
  myPlayer s' = myPlayer s /\ myPlayerId s' = myPlayerId s.
Proof.
  unfold onmessage, handleServerMessage; simpl.
  match goal with |- context [render ?t] =>
    destruct (render_frame t) as (-> & -> & -> & -> & _) end.
  repeat split.
Qed.

(** C1. Handling a [players_moved] message M leaves, under every id k that
    M.players has, exactly the value M.players[k] in the store (a whole
    object replaces the old entry, also under the controlled player's id,
    whatever the locally predicted position was); the entry under an id
    that M.players lacks is the same object with the same contents as
    before. *)
Theorem players_moved_full_overwrite
  (s : GameClient) (kvs : list (string * Player)) (k : string) :
  let s' := onmessage (in_players_moved kvs) s in
  (forall p, wire_get k kvs = Some p ->
             entry k s' = Some p /\
             (myPlayerId s = Some k -> store_player s' = Some p)) /\
  (wire_get k kvs = None ->
   players s' !! k = players s !! k /\
   (forall q, entry k s = Some q -> entry k s' = Some q)).
Proof.
  intros s'.
  destruct (onmessage_players_moved_store kvs s) as (Hh & Hp & _ & Hid).
  fold s' in Hh, Hp, Hid.
  destruct (parse_object_spec kvs (heap s)) as [Hkeep Hget].
  specialize (Hget k).
  assert (Hentry : forall p, wire_get k kvs = Some p -> entry k s' = Some p).
  { intros p Hw. rewrite Hw in Hget. destruct Hget as (l & Hl & Hobj).
    unfold entry. rewrite Hp, Hh. unfold Object_assign.
    erewrite lookup_union_Some_l by exact Hl. exact Hobj. }
  split.
  - intros p Hw. split; [by apply Hentry|].
    intros Hmine. unfold store_player. rewrite Hid, Hmine.
    apply (Hentry p Hw).
  - intros Hw. rewrite Hw in Hget.
    assert (Hsame : players s' !! k = players s !! k).
    { rewrite Hp. unfold Object_assign. by apply lookup_union_r. }
    split; [exact Hsame|].
    intros q. unfold entry. rewrite Hsame, Hh.
    destruct (players s !! k) as [l|]; simpl; [apply Hkeep | done].
Qed.

Lemma players_moved_full_overwrite_witness :
  entry "p1" (onmessage (in_players_moved [("p1", set_x 200 p1)]) joined)
    = Some (set_x 200 p1) /\
  players (onmessage (in_players_moved [("p1", set_x 200 p1)]) joined) !! "p2"
    = players joined !! "p2".
Proof.
  destruct (players_moved_full_overwrite joined [("p1", set_x 200 p1)] "p1")
    as [Hin _].
  destruct (players_moved_full_overwrite joined [("p1", set_x 200 p1)] "p2")
    as [_ Hout].
  destruct (Hin (set_x 200 p1) eq_refl) as [Hentry _].
  destruct (Hout eq_refl) as [Hsame _].
  split; [exact Hentry | exact Hsame].
Defined.

(** ** The controlled player and its store entry *)

Lemma onmessage_join_store pid kvs avs err s :
  let s' := onmessage (in_join_game true pid kvs avs err) s in
  heap s' = (parse_object kvs (heap s)).1 /\
  players s' = (parse_object kvs (heap s)).2 /\
  myPlayerId s' = Some pid /\
  myPlayer s' = (parse_object kvs (heap s)).2 !! pid.
Proof.
  unfold onmessage, handleServerMessage; simpl.
  match goal with |- context [render ?t] =>
    destruct (render_frame t) as (-> & -> & -> & -> & _) end.
  match goal with |- context [updateCamera ?t] =>
    destruct (updateCamera_frame t) as (-> & -> & -> & -> & _) end.
  repeat split.
Qed.

(** A successful join whose player table has the assigned id makes
    [this.myPlayer] the object stored under that id. *)
Lemma join_establishes_alias pid kvs avs err s p :
  wire_get pid kvs = Some p ->
  aliased (onmessage (in_join_game true pid kvs avs err) s).
Proof.
  intros Hw.
  destruct (onmessage_join_store pid kvs avs err s) as (Hh & Hp & Hid & Hmy).
  destruct (parse_object_spec kvs (heap s)) as [_ Hget].
  specialize (Hget pid). rewrite Hw in Hget. destruct Hget as (l & Hl & Hobj).
  exists pid, l. rewrite Hid, Hmy, Hp, Hh, Hl, Hobj. eauto.
Qed.

(** C2. After the join of the example session the controlled player is the
    object stored under its id.  A [players_moved] message that has the
    controlled player's id then puts a new object into the store, while
    [this.myPlayer] keeps pointing to the old one: the two are different
    objects with different positions, and the next local move changes the
    old object only. *)
Theorem players_moved_breaks_alias :
  let s' := onmessage (in_players_moved [("p1", set_x 200 p1)]) joined in
  let s'' := handleKeyDown "ArrowRight" s' in
  aliased joined /\
  ~ aliased s' /\
  myPlayer s' = Some 0%nat /\ players s' !! "p1" = Some 2%nat /\
  my_player s' = Some p1 /\ store_player s' = Some (set_x 200 p1) /\
  position <$> my_player s'' = Some (116, 100)%Z /\
  position <$> store_player s'' = Some (200, 100)%Z.
Proof.
  split; [|split].
  - exists "p1", 0%nat. vm_compute. repeat split. eexists; reflexivity.
  - intros (i & l & Hi & Hl & Hp & _).
    vm_compute in Hi. vm_compute in Hl. injection Hi as <-. injection Hl as <-.
    vm_compute in Hp. discriminate Hp.
  - vm_compute. repeat split.
Qed.

(** ** Local prediction and the outbound [move] *)

Lemma calculateNewPosition_applyMove d s p :
  my_player s = Some p ->
  calculateNewPosition d s = position (applyMove d p).
Proof.
  intros Hp. unfold calculateNewPosition, applyMove. rewrite Hp.
  repeat (match goal with |- context [String.eqb ?a ?b] =>
            destruct (String.eqb a b) end; try reflexivity).
Qed.

Lemma position_set_facing f p : position (set_facing f p) = position p.
Proof. reflexivity. Qed.

Lemma applyMove_set_facing d f p :
  applyMove d (set_facing f p) = set_facing f (applyMove d p).
Proof.
  unfold applyMove.
  repeat (match goal with |- context [String.eqb ?a ?b] =>
            destruct (String.eqb a b) end; try reflexivity).
Qed.

Lemma store_player_updateCamera s :
  store_player (updateCamera s) = store_player s.
Proof. apply footprint_updateCamera; untouched. Qed.

Lemma first_avatar_effects_nil snap : first_avatar_effects snap [].
Proof. split; [simpl; lia | constructor]. Qed.

Lemma first_avatar_effects_one snap e :
  avatar_effect e -> first_avatar_effects snap [(e, snap)].
Proof. intros He. split; [simpl; lia | by repeat constructor]. Qed.

Lemma renderAvatar_draw_effects key l flip s :
  exists new,
    trace (renderAvatar_draw key l flip s) = trace s ++ new /\
    first_avatar_effects (position <$> store_player s) new.
Proof.
  unfold renderAvatar_draw.
  destruct (imageCache s !! key) as [img|], (heap s !! l) as [player|];
    try (exists []; split;
         [by rewrite app_nil_r | apply first_avatar_effects_nil]).
  match goal with |- context [if ?b then _ else _] => destruct b end.
  - exists []. split; [by rewrite app_nil_r | apply first_avatar_effects_nil].
  - eexists. split; [reflexivity|]. by apply first_avatar_effects_one.
Qed.

Lemma renderAvatar_effects l s :
  exists new,
    trace (renderAvatar l s) = trace s ++ new /\
    first_avatar_effects (position <$> store_player s) new.
Proof.
  unfold renderAvatar.
  destruct (heap s !! l) as [player|];
    [|exists []; split;
      [by rewrite app_nil_r | apply first_avatar_effects_nil]].
  destruct (avatars s !! avatar player) as [av|];
    [|exists []; split;
      [by rewrite app_nil_r | apply first_avatar_effects_nil]].
  destruct (frameData _ _ _) as [fd|];
    [|exists []; split;
      [by rewrite app_nil_r | apply first_avatar_effects_nil]].
  destruct (imageCache s !! _).
  - apply renderAvatar_draw_effects.
  - eexists. split; [reflexivity|]. by apply first_avatar_effects_one.
Qed.

(** The trace of a render pass up to its first [await]: the paint, then
    what the call of [renderAvatar] for the first player adds. *)
Lemma trace_render s :
  exists new,
    trace (render s) =
    trace s ++ (if worldImage s
                then (Painted (cameraX (render s)) (cameraY (render s)),
                      position <$> store_player s) :: new
                else []) /\
    first_avatar_effects (position <$> store_player s) new.
Proof.
  assert (Hcx : cameraX (render s) = cameraX (if worldImage s
                                             then updateCamera s else s)).
  { unfold render. destruct (worldImage s); [|reflexivity]. simpl.
    destruct (first_player _); [|reflexivity].
    by rewrite (footprint_renderAvatar cameraX) by untouched. }
  assert (Hcy : cameraY (render s) = cameraY (if worldImage s
                                             then updateCamera s else s)).
  { unfold render. destruct (worldImage s); [|reflexivity]. simpl.
    destruct (first_player _); [|reflexivity].
    by rewrite (footprint_renderAvatar cameraY) by untouched. }
  rewrite Hcx, Hcy. clear Hcx Hcy.
  unfold render. destruct (worldImage s); simpl.
  2: { exists []. split; [by rewrite app_nil_r|].
       apply first_avatar_effects_nil. }
  set (s2 := log (Painted (cameraX (updateCamera s)) (cameraY (updateCamera s)))
               (updateCamera s)).
  assert (Ht2 : trace s2 = trace s ++
                  [(Painted (cameraX (updateCamera s)) (cameraY (updateCamera s)),
                    position <$> store_player s)]).
  { unfold s2, log; simpl.
    by rewrite (footprint_updateCamera trace), store_player_updateCamera
      by untouched. }
  assert (Hs2 : store_player s2 = store_player s).
  { unfold s2. by rewrite (footprint_log store_player),
      store_player_updateCamera by untouched. }
  destruct (first_player s2) as [l|].
  - destruct (renderAvatar_effects l s2) as (new & Ht & Hnew).
    exists new. rewrite Hs2 in Hnew. split; [|exact Hnew].
    by rewrite Ht, Ht2, <- app_assoc.
  - exists []. split; [exact Ht2 | apply first_avatar_effects_nil].
Qed.

Lemma avatar_effects_not_sent snap new :
  first_avatar_effects snap new -> omap message_of new = [].
Proof.
  intros [_ HF]. induction HF as [|[e o] rest [He _] _ IH]; [reflexivity|].
  simpl. destruct e; simpl in *; try contradiction; exact IH.
Qed.

Lemma effects_since_app s s' new :
  trace s' = trace s ++ new -> effects_since s s' = new.
Proof. intros H. unfold effects_since. rewrite H. apply drop_app_length. Qed.

(** The handler of a move intent, statement by statement, when the channel
    is open and a controlled player exists. *)
Lemma sendMoveCommand_steps s k d l p :
  socket_open s = true -> keyCodeToDirection k = Some d ->
  myPlayer s = Some l -> heap s !! l = Some p ->
  let target := position (applyMove d p) in
  let s1 := update_object l (set_facing (Some d)) s in
  let s2 := socket_send (move target.1 target.2) s1 in
  let s4 := set_isMoving true (set_lastSentDirection (Some d) s2) in
  sendMoveCommand k s = render (update_object l (applyMove d) s4) /\
  my_player s1 = Some (set_facing (Some d) p) /\
  my_player (sendMoveCommand k s) = Some (applyMove d (set_facing (Some d) p)).
Proof.
  intros Hopen Hk Hmy Hobj target s1 s2 s4.
  assert (H1 : my_player s1 = Some (set_facing (Some d) p)).
  { unfold my_player, s1; simpl. rewrite Hmy; simpl.
    by rewrite list_lookup_alter_eq, Hobj. }
  assert (Hcalc : calculateNewPosition d s1 = target).
  { rewrite (calculateNewPosition_applyMove d s1 _ H1).
    by rewrite applyMove_set_facing. }
  assert (Heq : sendMoveCommand k s = render (update_object l (applyMove d) s4)).
  { unfold sendMoveCommand. rewrite Hopen, Hk, Hmy; simpl.
    fold s1. rewrite Hcalc. fold s2. fold s4.
    unfold updateMyPosition. simpl. by rewrite Hmy. }
  split; [exact Heq|]. split; [exact H1|].
  rewrite Heq. unfold my_player.
  destruct (render_frame (update_object l (applyMove d) s4)) as (-> & _ & -> & _).
  simpl. rewrite Hmy; simpl.
  by rewrite !list_lookup_alter_eq, Hobj.
Qed.

Lemma sendMoveCommand_effects s k d l p :
  socket_open s = true -> keyCodeToDirection k = Some d ->
  myPlayer s = Some l -> heap s !! l = Some p ->
  let s' := sendMoveCommand k s in
  let target := position (applyMove d p) in
  exists new,
    effects_since s s' =
    (Sent (move target.1 target.2),
     position <$> store_player (update_object l (set_facing (Some d)) s))
      :: (if worldImage s
          then (Painted (cameraX s') (cameraY s'),
                position <$> store_player s') :: new
          else []) /\
    first_avatar_effects (position <$> store_player s') new.
Proof.
  intros Hopen Hk Hmy Hobj s' target.
  destruct (sendMoveCommand_steps s k d l p Hopen Hk Hmy Hobj) as (Heq & _).
  unfold s'. rewrite Heq.
  match goal with |- context [render ?t] =>
    destruct (trace_render t) as (new & Ht & Hnew) end.
  exists new. rewrite store_player_render. split; [|exact Hnew].
  apply effects_since_app. rewrite Ht. simpl.
  rewrite <- app_assoc. reflexivity.
Qed.

Lemma store_player_sendMoveCommand s k d i l p :
  socket_open s = true -> keyCodeToDirection k = Some d ->
  myPlayerId s = Some i -> myPlayer s = Some l ->
  players s !! i = Some l -> heap s !! l = Some p ->
  store_player (update_object l (set_facing (Some d)) s)
    = Some (set_facing (Some d) p) /\
  store_player (sendMoveCommand k s)
    = Some (applyMove d (set_facing (Some d) p)).
Proof.
  intros Hopen Hk Hid Hmy Hpl Hobj. split.
  - unfold store_player; simpl. rewrite Hid; simpl. rewrite Hpl; simpl.
    by rewrite list_lookup_alter_eq, Hobj.
  - destruct (sendMoveCommand_steps s k d l p Hopen Hk Hmy Hobj) as (-> & _).
    rewrite store_player_render. unfold store_player; simpl.
    rewrite Hid; simpl. rewrite Hpl; simpl.
    by rewrite !list_lookup_alter_eq, Hobj.
Qed.

(** C3, as the code has it.  When the channel is open and the controlled
    player exists and is the object stored under its id, the handler of a
    move intent first sets the facing, then sends the move message, which
    already carries the predicted target position, at an instant at which
    the store still shows the old position; the position in the store is
    updated in the same handler right after the send.  Every effect that
    follows sees the predicted position: the paint of the render pass that
    the intent triggers, and what the first call of [renderAvatar] in that
    pass adds (at most one started load or drawn avatar). *)
Theorem move_sent_then_position_updated
  (s : GameClient) (k d i : string) (l : loc) (p : Player) :
  socket_open s = true -> keyCodeToDirection k = Some d ->
  myPlayerId s = Some i -> myPlayer s = Some l ->
  players s !! i = Some l -> heap s !! l = Some p ->
  let s' := sendMoveCommand k s in
  let target := position (applyMove d p) in
  let faced := update_object l (set_facing (Some d)) s in
  let message := move target.1 target.2 in
  s' = updateMyPosition d
         (set_isMoving true
            (set_lastSentDirection (Some d) (socket_send message faced))) /\
  store_player faced = Some (set_facing (Some d) p) /\
  (exists new,
      effects_since s s' =
        (Sent message, Some (position p))
          :: (if worldImage s
              then (Painted (cameraX s') (cameraY s'), Some target) :: new
              else []) /\
      first_avatar_effects (Some target) new) /\
  position <$> store_player s' = Some target.
Proof.
  intros Hopen Hk Hid Hmy Hpl Hobj s' target faced message.
  destruct (store_player_sendMoveCommand s k d i l p Hopen Hk Hid Hmy Hpl Hobj)
    as [Hbefore Hafter].
  destruct (sendMoveCommand_steps s k d l p Hopen Hk Hmy Hobj)
    as (Heq & _ & _).
  assert (Hpos : position <$> store_player s' = Some target).
  { unfold s'. rewrite Hafter. simpl.
    by rewrite applyMove_set_facing, position_set_facing. }
  split; [|split; [exact Hbefore|split; [|exact Hpos]]].
  - unfold s'. rewrite Heq. unfold updateMyPosition. simpl. by rewrite Hmy.
  - destruct (sendMoveCommand_effects s k d l p Hopen Hk Hmy Hobj)
      as (new & Heff & Hnew).
    fold s' in Heff, Hnew. rewrite Hpos in Heff, Hnew.
    rewrite Hbefore in Heff.
    exists new. split; [exact Heff | exact Hnew].
Qed.

Lemma move_sent_then_position_updated_witness :
  let s' := sendMoveCommand "ArrowLeft" joined in
  let faced := update_object 0%nat (set_facing (Some "left")) joined in
  s' = updateMyPosition "left"
         (set_isMoving true
            (set_lastSentDirection (Some "left")
               (socket_send (move 84 100) faced))) /\
  store_player faced = Some (set_facing (Some "left") p1) /\
  (exists new,
      effects_since joined s' =
        [(Sent (move 84 100), Some (100, 100)%Z);
         (Painted (cameraX s') (cameraY s'), Some (84, 100)%Z)] ++ new /\
      first_avatar_effects (Some (84, 100)%Z) new) /\
  position <$> store_player s' = Some (84, 100)%Z.
Proof.
  apply (move_sent_then_position_updated joined "ArrowLeft" "left" "p1"
           0%nat p1); reflexivity.
Defined.

(** In the example session the handler of "ArrowLeft" sends, paints and,
    still before it returns, starts the load of the mirrored frame for the
    first player. *)
Example move_left_effects :
  fst <$> effects_since joined (sendMoveCommand "ArrowLeft" joined) =
    [Sent (move 84 100);
     Painted (cameraX joined) (cameraY joined);
     LoadStarted "hero_left_0" "e0"] /\
  snd <$> effects_since joined (sendMoveCommand "ArrowLeft" joined) =
    [Some (100, 100)%Z; Some (84, 100)%Z; Some (84, 100)%Z].
Proof. split; vm_compute; reflexivity. Qed.

(** The claim as stated fails: in the example session the move message for
    "ArrowRight" leaves while the store still shows (100,100), not the
    predicted (116,100). *)
Lemma send_precedes_update_example :
  ~ update_precedes_send joined (sendMoveCommand "ArrowRight" joined).
Proof.
  intros H.
  specialize (H 116%Z 100%Z (Some (100, 100)%Z)).
  assert (Hin : (Sent (move 116 100), Some (100, 100)%Z)
                  ∈ effects_since joined (sendMoveCommand "ArrowRight" joined)).
  { vm_compute. left. }
  specialize (H Hin). vm_compute in H. discriminate H.
Qed.

(** With the channel open and a controlled player, the handler of a move
    intent for direction d sends exactly one message, a [move] whose x and
    y are a position (not a direction): the position the object behind
    [this.myPlayer] has right after the local prediction for d.  It is the
    store entry's position when that object is the one stored under the
    controlled player's id. *)
Lemma sendMoveCommand_message
  (s : GameClient) (k d : string) (l : loc) (p : Player) :
  socket_open s = true -> keyCodeToDirection k = Some d ->
  myPlayer s = Some l -> heap s !! l = Some p ->
  let s' := sendMoveCommand k s in
  let p' := applyMove d (set_facing (Some d) p) in
  sent_since s s' = [move (x p') (y p')] /\
  my_player s' = Some p' /\
  (forall i, myPlayerId s = Some i -> players s !! i = Some l ->
             store_player s' = Some p').
Proof.
  intros Hopen Hk Hmy Hobj s' p'.
  destruct (sendMoveCommand_steps s k d l p Hopen Hk Hmy Hobj) as (_ & _ & Hp').
  split; [|split].
  - destruct (sendMoveCommand_effects s k d l p Hopen Hk Hmy Hobj)
      as (new & Heff & Hnew).
    unfold sent_since, s'. rewrite Heff.
    unfold p'. rewrite applyMove_set_facing.
    destruct (worldImage s); [|reflexivity].
    change (omap message_of (?a :: ?b :: new))
      with (move (x (applyMove d p)) (y (applyMove d p))
              :: omap message_of new).
    by rewrite (avatar_effects_not_sent _ _ Hnew).
  - exact Hp'.
  - intros i Hid Hpl.
    by destruct (store_player_sendMoveCommand s k d i l p
                   Hopen Hk Hid Hmy Hpl Hobj) as [_ ?].
Qed.

(** C4.  The move message does carry a position, the one computed from the
    object behind [this.myPlayer], but that need not be the controlled
    player's position in the store: after an inbound [players_moved] with
    the controlled player's own id at (200,100), the channel is open, the
    controlled player exists, and the handler of "ArrowRight" sends
    (116,100) while the store entry for "p1" stays at (200,100) after the
    local prediction. *)
Theorem move_message_differs_from_store :
  let s' := sendMoveCommand "ArrowRight" echoed in
  socket_open echoed = true /\
  myPlayerId echoed = Some "p1" /\
  position <$> store_player echoed = Some (200, 100)%Z /\
  position <$> my_player echoed = Some (100, 100)%Z /\
  sent_since echoed s' = [move 116 100] /\
  position <$> my_player s' = Some (116, 100)%Z /\
  position <$> store_player s' = Some (200, 100)%Z.
Proof.
  intros s'.
  split; [vm_compute; reflexivity|]. split; [vm_compute; reflexivity|].
  split; [vm_compute; reflexivity|]. split; [vm_compute; reflexivity|].
  split; [vm_compute; reflexivity|]. split; vm_compute; reflexivity.
Qed.

(** ** World bounds *)

Lemma applyMove_in_world d p : in_world p -> in_world (applyMove d p).
Proof.
  unfold in_world, applyMove, worldWidth, worldHeight, moveSpeed.
  intros [Hx Hy].
  repeat (match goal with |- context [String.eqb ?a ?b] =>
            destruct (String.eqb a b) end; simpl; try lia).
Qed.

Lemma my_player_updateMyPosition d s :
  my_player (updateMyPosition d s) = applyMove d <$> my_player s.
Proof.
  unfold updateMyPosition, my_player.
  destruct (myPlayer s) as [l|] eqn:Hmy; simpl; [|by rewrite Hmy].
  destruct (render_frame (update_object l (applyMove d) s)) as (-> & _ & -> & _).
  simpl. rewrite Hmy; simpl. apply list_lookup_alter_eq.
Qed.

Lemma my_player_iter_updateMyPosition d n s :
  my_player (Nat.iter n (updateMyPosition d) s)
    = Nat.iter n (applyMove d) <$> my_player s.
Proof.
  induction n as [|n IH]; simpl.
  - by destruct (my_player s).
  - rewrite my_player_updateMyPosition, IH. by destruct (my_player s).
Qed.

Lemma applyMove_up_y p : y (applyMove "up" p) = Z.max 0 (y p - moveSpeed).
Proof. reflexivity. Qed.

Lemma applyMove_up_from_5 n p :
  y p = 5%Z -> y (Nat.iter (S n) (applyMove "up") p) = 0%Z.
Proof.
  intros Hy. induction n as [|n IH].
  - change (Nat.iter 1 (applyMove "up") p) with (applyMove "up" p).
    rewrite applyMove_up_y, Hy. reflexivity.
  - change (Nat.iter (S (S n)) (applyMove "up") p)
      with (applyMove "up" (Nat.iter (S n) (applyMove "up") p)).
    rewrite applyMove_up_y, IH. reflexivity.
Qed.

(** C5. The local prediction keeps the controlled player inside the world:
    from a position in [0, worldWidth] x [0, worldHeight], a move in any
    direction with the step of 16 ends in that rectangle again.  Moving up
    from y = 5 gives y = 0 at the first move and at every later one. *)
Theorem prediction_stays_in_world (d : string) (s : GameClient) (p : Player) :
  my_player s = Some p ->
  (in_world p ->
   exists p', my_player (updateMyPosition d s) = Some p' /\
              p' = applyMove d p /\ in_world p') /\
  (y p = 5%Z ->
   forall n, y <$> my_player (Nat.iter (S n) (updateMyPosition "up") s)
             = Some 0%Z).
Proof.
  intros Hp. split.
  - intros Hin. exists (applyMove d p).
    rewrite my_player_updateMyPosition, Hp.
    auto using applyMove_in_world.
  - intros Hy n. rewrite my_player_iter_updateMyPosition, Hp.
    cbn [fmap option_fmap option_map]. f_equal. by apply applyMove_up_from_5.
Qed.

Lemma prediction_stays_in_world_witness :
  (exists p', my_player (updateMyPosition "left" joined) = Some p' /\
              p' = applyMove "left" p1 /\ in_world p') /\
  (forall n,
      y <$> my_player
              (Nat.iter (S n) (updateMyPosition "up") near_top)
      = Some 0%Z).
Proof.
  split.
  - apply (prediction_stays_in_world "left" joined p1); [reflexivity|].
    unfold in_world, worldWidth, worldHeight; simpl; lia.
  - apply (prediction_stays_in_world "up" near_top (set_y 5 p1));
      reflexivity.
Defined.

(** ** Intents without a controlled player *)

Lemma includes_arrowKeys code :
  includes code arrowKeys = true ->
  code = "ArrowUp" \/ code = "ArrowDown" \/
  code = "ArrowLeft" \/ code = "ArrowRight".
Proof.
  unfold includes, arrowKeys; simpl.
  destruct (String.eqb_spec code "ArrowUp"); [auto|].
  destruct (String.eqb_spec code "ArrowDown"); [auto|].
  destruct (String.eqb_spec code "ArrowLeft"); [auto|].
  destruct (String.eqb_spec code "ArrowRight"); [auto|].
  discriminate.
Qed.

(** C6, as the code has it.  While no controlled player exists, a move
    intent for a directional key and a stop intent are gated by the
    channel alone.  With the channel not open they change nothing at all.
    With the channel open the stop intent sends [stop] and clears
    [lastSentDirection] and [isMoving]; the move intent sends a [move] with
    the fallback position (0,0) and sets [lastSentDirection] to the
    direction and [isMoving]; this is all either of them does: the send is
    the only effect (nothing is painted, no load is started), and players,
    avatars, controlled player and camera are as before. *)
Theorem intents_without_player (s : GameClient) (k : string) :
  myPlayer s = None -> includes k arrowKeys = true ->
  let sm := sendMoveCommand k s in
  let ss := sendStopCommand s in
  (socket_open s = false -> sm = s /\ ss = s) /\
  (socket_open s = true ->
   (exists d, keyCodeToDirection k = Some d /\
      sm = set_isMoving true
             (set_lastSentDirection (Some d) (socket_send (move 0 0) s))) /\
   ss = set_isMoving false (set_lastSentDirection None (socket_send stop s)) /\
   effects_since s sm = [(Sent (move 0 0), position <$> store_player s)] /\
   effects_since s ss = [(Sent stop, position <$> store_player s)]).
Proof.
  intros Hmy Hk sm ss.
  assert (Hdrop : forall new, drop (length (trace s)) (trace s ++ new) = new)
    by (intros; apply drop_app_length).
  assert (Hd : exists d, keyCodeToDirection k = Some d).
  { destruct (includes_arrowKeys k Hk) as [-> | [-> | [-> | ->]]]; by eexists. }
  destruct Hd as [d Hd].
  assert (Hm : sm = if socket_open s
                    then set_isMoving true
                           (set_lastSentDirection (Some d)
                              (socket_send (move 0 0) s))
                    else s).
  { unfold sm, sendMoveCommand.
    destruct (socket_open s); [|reflexivity]. simpl.
    rewrite Hd, Hmy. unfold updateMyPosition, calculateNewPosition, my_player.
    simpl. by rewrite Hmy. }
  assert (Hs : ss = if socket_open s
                    then set_isMoving false
                           (set_lastSentDirection None (socket_send stop s))
                    else s).
  { unfold ss, sendStopCommand. by destruct (socket_open s). }
  rewrite Hm, Hs. clear Hm Hs.
  split.
  - intros ->. split; reflexivity.
  - intros ->. repeat split.
    + exists d. split; [exact Hd | reflexivity].
    + unfold effects_since. simpl. by rewrite Hdrop.
    + unfold effects_since. simpl. by rewrite Hdrop.
Qed.

Lemma intents_without_player_witness :
  (sendMoveCommand "ArrowUp" (initial 800 600) = initial 800 600 /\
   sendStopCommand (initial 800 600) = initial 800 600) /\
  ((exists d, keyCodeToDirection "ArrowUp" = Some d /\
      sendMoveCommand "ArrowUp" connected =
      set_isMoving true
        (set_lastSentDirection (Some d) (socket_send (move 0 0) connected))) /\
   sendStopCommand connected =
     set_isMoving false
       (set_lastSentDirection None (socket_send stop connected)) /\
   effects_since connected (sendMoveCommand "ArrowUp" connected)
     = [(Sent (move 0 0), None)] /\
   effects_since connected (sendStopCommand connected)
     = [(Sent stop, None)]).
Proof.
  split.
  - apply (intents_without_player (initial 800 600) "ArrowUp");
      reflexivity.
  - apply (intents_without_player connected "ArrowUp"); reflexivity.
Defined.

(** The claim as stated fails: connected but not yet joined, a move intent
    and a stop intent each send a message and change the client state. *)
Lemma intents_without_player_still_send :
  myPlayer connected = None /\
  sent_since connected (sendMoveCommand "ArrowUp" connected) = [move 0 0] /\
  sendMoveCommand "ArrowUp" connected <> connected /\
  sent_since connected (sendStopCommand connected) = [stop] /\
  sendStopCommand connected <> connected.
Proof.
  repeat split; try reflexivity.
  - intros H. apply (f_equal isMoving) in H. vm_compute in H. discriminate H.
  - intros H. apply (f_equal (fun t => length (trace t))) in H.
    vm_compute in H. discriminate H.
Qed.

(** ** Key release *)

(** C7. Releasing a directional key marks it released and then emits
    exactly one intent: the handler is one call of [sendStopCommand] when
    no direction is held any more, and otherwise one call of
    [sendMoveCommand] for the first direction still held in the order up,
    down, left, right. *)
Theorem keyup_emits_one_intent
  (s : GameClient) (code : string) (u d l r : bool) :
  includes code arrowKeys = true ->
  pressedKeys s = keys u d l r ->
  let s1 := set_pressedKeys (set_property code false (pressedKeys s)) s in
  is_pressed code s1 = false /\
  (forall k, k <> code -> is_pressed k s1 = is_pressed k s) /\
  match held_directions s1 with
  | [] => handleKeyUp code s = sendStopCommand s1
  | direction :: _ =>
      keyCodeToDirection (key_of_direction direction) = Some direction /\
      handleKeyUp code s = sendMoveCommand (key_of_direction direction) s1
  end.
Proof.
  intros Hcode Hkeys s1.
  assert (Hup : handleKeyUp code s =
                if negb (existsb snd (pressedKeys s1)) then sendStopCommand s1
                else sendMoveCommandForPressedKeys s1).
  { unfold handleKeyUp. by rewrite Hcode. }
  rewrite Hup. clear Hup.
  unfold sendMoveCommandForPressedKeys, held_directions, is_pressed.
  subst s1. simpl pressedKeys. rewrite Hkeys.
  split; [|split].
  - destruct (includes_arrowKeys code Hcode) as [-> | [-> | [-> | ->]]]; reflexivity.
  - intros k Hk. unfold keys; simpl.
    destruct (includes_arrowKeys code Hcode) as [-> | [-> | [-> | ->]]]; simpl;
      repeat (match goal with |- context [String.eqb ?a ?b] =>
                destruct (String.eqb_spec a b); subst end;
              try reflexivity; try congruence).
  - destruct (includes_arrowKeys code Hcode) as [-> | [-> | [-> | ->]]];
      destruct u, d, l, r; simpl; auto.
Qed.

(** Holding up and left and releasing left re-emits a move for up. *)
Lemma keyup_emits_one_intent_witness :
  let s := run joined [ev_keydown "ArrowUp"; ev_keydown "ArrowLeft"] in
  let s1 := set_pressedKeys (set_property "ArrowLeft" false (pressedKeys s)) s in
  keyCodeToDirection "ArrowUp" = Some "up" /\
  handleKeyUp "ArrowLeft" s = sendMoveCommand "ArrowUp" s1.
Proof.
  intros s s1.
  apply (keyup_emits_one_intent s "ArrowLeft" true false true false);
    reflexivity.
Defined.

(** ** Avatar resolution *)

Lemma cacheKey_east_left (a rest : string) :
  a +:+ "_" +:+ "east" +:+ rest <> a +:+ "_" +:+ "left" +:+ rest.
Proof.
  intros H. apply (inj (String.app a)) in H. simpl in H. discriminate H.
Qed.

Lemma canonical_direction d :
  (d = "west" \/ d = "left" -> actualDirection d = "east" /\ shouldFlip d = true) /\
  (d <> "west" -> d <> "left" -> actualDirection d = d /\ shouldFlip d = false).
Proof.
  unfold actualDirection, shouldFlip. split.
  - intros [-> | ->]; split; reflexivity.
  - intros Hw Hl.
    destruct (String.eqb_spec d "left"); [congruence|].
    destruct (String.eqb_spec d "west"); [congruence|]. split; reflexivity.
Qed.

Lemma renderAvatar_miss s l player av fd :
  heap s !! l = Some player ->
  avatars s !! avatar player = Some av ->
  frameData av (actualDirection (direction_of player)) (frame_of player)
    = Some fd ->
  imageCache s !! cacheKey player (direction_of player) (frame_of player)
    = None ->
  let key := cacheKey player (direction_of player) (frame_of player) in
  renderAvatar l s =
  set_suspended
    (suspended s ++ [mkSuspended key fd l (shouldFlip (direction_of player))])
    (loadAvatarImage key fd s).
Proof.
  intros Hobj Hav Hfd Hmiss key. unfold renderAvatar.
  rewrite Hobj, Hav, Hfd. fold key. fold key in Hmiss. by rewrite Hmiss.
Qed.

(** C8. The facing used for an avatar is the player's facing (south when
    absent).  For west or its alias left the frame is looked up under east
    and is drawn mirrored; for any other facing the lookup direction is
    the facing and nothing is mirrored.  The cache key under which the
    load is started is built from the avatar name, the facing before this
    substitution, and the frame index, so a player facing east and one
    facing left get different keys for the same frame image. *)
Theorem avatar_resolution :
  (forall player,
      let d := direction_of player in
      (d = "west" \/ d = "left" ->
       actualDirection d = "east" /\ shouldFlip d = true) /\
      (d <> "west" -> d <> "left" ->
       actualDirection d = d /\ shouldFlip d = false) /\
      (forall f, facing player = Some f -> f <> "" -> d = f)) /\
  (forall s l player av fd,
      heap s !! l = Some player ->
      avatars s !! avatar player = Some av ->
      frameData av (actualDirection (direction_of player)) (frame_of player)
        = Some fd ->
      let key := avatar player +:+ "_" +:+ direction_of player +:+ "_"
                   +:+ pretty (frame_of player) in
      imageCache s !! key = None ->
      effects_since s (renderAvatar l s)
        = [(LoadStarted key fd, position <$> store_player s)] /\
      suspended (renderAvatar l s)
        = suspended s
            ++ [mkSuspended key fd l (shouldFlip (direction_of player))]) /\
  (forall pe pl av,
      facing pe = Some "east" -> facing pl = Some "left" ->
      avatar pe = avatar pl -> animationFrame pe = animationFrame pl ->
      cacheKey pe (direction_of pe) (frame_of pe)
        <> cacheKey pl (direction_of pl) (frame_of pl) /\
      frameData av (actualDirection (direction_of pe)) (frame_of pe)
        = frameData av (actualDirection (direction_of pl)) (frame_of pl)).
Proof.
  split; [|split].
  - intros player d.
    destruct (canonical_direction d) as [Hwest Hother].
    split; [exact Hwest|]. split; [exact Hother|].
    intros f Hf Hne. unfold d, direction_of. rewrite Hf.
    by destruct (String.eqb_spec f "").
  - intros s l player av fd Hobj Hav Hfd key Hmiss.
    rewrite (renderAvatar_miss s l player av fd Hobj Hav Hfd Hmiss).
    split; [|reflexivity].
    apply effects_since_app. reflexivity.
  - intros pe pl av He Hl Hav Hfr.
    unfold cacheKey, direction_of, frame_of. rewrite He, Hl, Hav, Hfr. simpl.
    split; [apply cacheKey_east_left | reflexivity].
Qed.

Lemma avatar_resolution_witness :
  (actualDirection "left" = "east" /\ shouldFlip "left" = true) /\
  (actualDirection "west" = "east" /\ shouldFlip "west" = true) /\
  (actualDirection "north" = "north" /\ shouldFlip "north" = false) /\
  direction_of p2 = "east" /\
  (effects_since joined (renderAvatar 1%nat joined)
     = [(LoadStarted "hero_east_0" "e0", Some (100, 100)%Z)] /\
   suspended (renderAvatar 1%nat joined)
     = [mkSuspended "hero_south_0" "s0" 0%nat false;
        mkSuspended "hero_east_0" "e0" 1%nat false]) /\
  ("hero_east_0" <> "hero_left_0" /\
   frameData hero "east" 0 = frameData hero "east" 0).
Proof.
  destruct avatar_resolution as (Hcanon & Hkey & Hdistinct).
  destruct (Hcanon (set_facing (Some "left") p2)) as (Hleft & _ & _).
  destruct (Hcanon (set_facing (Some "west") p2)) as (Hwest & _ & _).
  destruct (Hcanon (set_facing (Some "north") p2)) as (_ & Hnorth & _).
  destruct (Hcanon p2) as (_ & _ & Hfacing).
  split; [apply Hleft; right; reflexivity|].
  split; [apply Hwest; left; reflexivity|].
  split; [apply Hnorth; discriminate|].
  split; [apply (Hfacing "east"); [reflexivity | discriminate]|].
  split.
  - apply (Hkey joined 1%nat p2 hero "e0"); reflexivity.
  - apply (Hdistinct p2 (set_facing (Some "left") p2) hero); reflexivity.
Defined.

(** ** Camera *)

Lemma clamp_bounds (c hi : Q) :
  (0 <= Math_max 0 (Math_min c hi))%Q /\
  (0 <= hi -> Math_max 0 (Math_min c hi) <= hi)%Q /\
  (hi < 0 -> Math_max 0 (Math_min c hi) == 0)%Q.
Proof.
  unfold Math_max, Math_min. split; [apply Q.le_max_l|]. split.
  - intros Hhi. apply Q.max_lub; [exact Hhi | apply Q.le_min_r].
  - intros Hhi. apply Q.max_l.
    apply Qle_trans with hi; [apply Q.le_min_r | by apply Qlt_le_weak].
Qed.

Lemma updateCamera_offsets s p :
  my_player s = Some p ->
  cameraX (updateCamera s) =
    Math_max 0 (Math_min (inject_Z (x p) - inject_Z (canvasWidth s) / 2)
                         (inject_Z (worldWidth - canvasWidth s))) /\
  cameraY (updateCamera s) =
    Math_max 0 (Math_min (inject_Z (y p) - inject_Z (canvasHeight s) / 2)
                         (inject_Z (worldHeight - canvasHeight s))) /\
  canvasWidth (updateCamera s) = canvasWidth s /\
  canvasHeight (updateCamera s) = canvasHeight s.
Proof. intros Hp. unfold updateCamera. rewrite Hp. repeat split. Qed.

Lemma inject_Z_room (w W : Z) (c : Q) :
  (c <= inject_Z (W - w) -> c + inject_Z w <= inject_Z W)%Q.
Proof.
  unfold Z.sub. rewrite inject_Z_plus, inject_Z_opp. lra.
Qed.

(** C9, as the code has it.  For every position of the controlled player
    the recomputed camera offset is at least 0 on both axes, and on an
    axis on which the viewport is not larger than the world it is at most
    the world size minus the viewport size, so with a viewport that fits
    into the world all viewport corners are inside the world.  On an axis
    on which the viewport is larger than the world the offset is 0. *)
Theorem camera_within_world (s : GameClient) (p : Player) :
  my_player s = Some p ->
  let s' := updateCamera s in
  (0 <= cameraX s' /\ 0 <= cameraY s')%Q /\
  ((canvasWidth s <= worldWidth)%Z ->
   (cameraX s' <= inject_Z (worldWidth - canvasWidth s))%Q) /\
  ((canvasHeight s <= worldHeight)%Z ->
   (cameraY s' <= inject_Z (worldHeight - canvasHeight s))%Q) /\
  ((canvasWidth s <= worldWidth)%Z -> (canvasHeight s <= worldHeight)%Z ->
   viewport_inside_world s') /\
  ((worldWidth < canvasWidth s)%Z -> (cameraX s' == 0)%Q) /\
  ((worldHeight < canvasHeight s)%Z -> (cameraY s' == 0)%Q).
Proof.
  intros Hp s'.
  destruct (updateCamera_offsets s p Hp) as (Hx & Hy & Hw & Hh).
  fold s' in Hx, Hy, Hw, Hh.
  set (cx := (inject_Z (x p) - inject_Z (canvasWidth s) / 2)%Q) in *.
  set (cy := (inject_Z (y p) - inject_Z (canvasHeight s) / 2)%Q) in *.
  destruct (clamp_bounds cx (inject_Z (worldWidth - canvasWidth s)))
    as (Hx0 & Hx1 & Hx2).
  destruct (clamp_bounds cy (inject_Z (worldHeight - canvasHeight s)))
    as (Hy0 & Hy1 & Hy2).
  rewrite <- Hx in Hx0, Hx1, Hx2. rewrite <- Hy in Hy0, Hy1, Hy2.
  assert (Hxin : (canvasWidth s <= worldWidth)%Z ->
                 (cameraX s' <= inject_Z (worldWidth - canvasWidth s))%Q).
  { intros Hle. apply Hx1. change 0%Q with (inject_Z 0).
    rewrite <- Zle_Qle. lia. }
  assert (Hyin : (canvasHeight s <= worldHeight)%Z ->
                 (cameraY s' <= inject_Z (worldHeight - canvasHeight s))%Q).
  { intros Hle. apply Hy1. change 0%Q with (inject_Z 0).
    rewrite <- Zle_Qle. lia. }
  split; [by split|]. split; [exact Hxin|]. split; [exact Hyin|].
  split; [|split].
  - intros Hwle Hhle. unfold viewport_inside_world. rewrite Hw, Hh.
    split; (split; [assumption | apply inject_Z_room; auto]).
  - intros Hlt. apply Hx2. change 0%Q with (inject_Z 0).
    rewrite <- Zlt_Qlt. lia.
  - intros Hlt. apply Hy2. change 0%Q with (inject_Z 0).
    rewrite <- Zlt_Qlt. lia.
Qed.

Lemma camera_within_world_witness :
  ((0 <= cameraX (updateCamera at_corner) /\
    0 <= cameraY (updateCamera at_corner))%Q /\
   viewport_inside_world (updateCamera at_corner)) /\
  (cameraX (updateCamera joined) <= inject_Z (worldWidth - 800))%Q /\
  (cameraY (updateCamera joined) <= inject_Z (worldHeight - 600))%Q /\
  (cameraX (updateCamera wide) == 0)%Q /\
  (cameraY (updateCamera (set_canvasHeight 2049 wide)) == 0)%Q.
Proof.
  destruct (camera_within_world at_corner (set_y 2048 (set_x 2048 p1)) eq_refl)
    as (Hpos & _ & _ & Hin & _).
  destruct (camera_within_world joined p1 eq_refl) as (_ & Hx & Hy & _).
  destruct (camera_within_world wide p1 eq_refl) as (_ & _ & _ & _ & Hwide & _).
  destruct (camera_within_world (set_canvasHeight 2049 wide) p1 eq_refl)
    as (_ & _ & _ & _ & _ & Hhigh).
  split; [split; [exact Hpos|]|].
  - apply Hin; vm_compute; discriminate.
  - split; [apply Hx; vm_compute; discriminate|].
    split; [apply Hy; vm_compute; discriminate|].
    split; [apply Hwide; reflexivity | apply Hhigh; reflexivity].
Defined.

(** The claim as stated fails for a viewport larger than the world: in a
    window 2560 wide the camera offset is 0, which is not within
    [0, worldWidth - 2560], and the right viewport edge is at 2560. *)
Lemma camera_viewport_wider_than_world :
  my_player wide = Some p1 /\
  ~ viewport_inside_world (updateCamera wide) /\
  ~ (cameraX (updateCamera wide)
       <= inject_Z (worldWidth - canvasWidth wide))%Q.
Proof.
  split; [reflexivity|]. split.
  - intros [[_ H] _]. vm_compute in H. apply H. reflexivity.
  - intros H. vm_compute in H. apply H. reflexivity.
Qed.

(** ** The image cache *)

Lemma quiet_refl s : quiet s s.
Proof. split; reflexivity. Qed.

Lemma quiet_trans s1 s2 s3 : quiet s1 s2 -> quiet s2 s3 -> quiet s1 s3.
Proof.
  intros [Hc1 Hl1] [Hc2 Hl2]. split; [congruence|].
  intros key. by rewrite Hl2, Hl1.
Qed.

Lemma quiet_same s s' :
  imageCache s' = imageCache s -> trace s' = trace s -> quiet s s'.
Proof.
  intros Hc Ht. split; [exact Hc|]. intros key. unfold loads_started.
  by rewrite Ht.
Qed.

Lemma loads_started_log key e s :
  loads_started key (log e s) =
  (loads_started key s + if is_load_of key (e, None) then 1 else 0)%nat.
Proof.
  unfold loads_started, log; simpl.
  rewrite List.filter_app, length_app. f_equal.
  unfold is_load_of; simpl.
  destruct e as [m|cx cy|k fd|k img b]; try reflexivity.
  by destruct (String.eqb k key).
Qed.

Lemma quiet_log e s :
  (forall k fd, e <> LoadStarted k fd) -> quiet s (log e s).
Proof.
  intros He. split; [reflexivity|]. intros key. rewrite loads_started_log.
  unfold is_load_of; simpl.
  destruct e as [m|cx cy|k fd|k img b]; try lia. by destruct (He k fd).
Qed.

Create HintDb quiet.

#[local] Hint Resolve quiet_refl : quiet.

(** [quiet s (g t)] from [quiet s t] when the last operation [g] is
    quiet. *)
Ltac peel :=
  lazymatch goal with
  | |- quiet ?s (?g ?t) =>
      apply (quiet_trans s t);
      [| first [ solve [auto with quiet]
               | apply quiet_log; discriminate
               | apply quiet_same; reflexivity ] ]
  end.

Ltac quiet_tac := repeat peel; auto with quiet.

Lemma quiet_updateCamera s : quiet s (updateCamera s).
Proof.
  apply quiet_same; by destruct (updateCamera_frame s) as (_&_&_&_&?&?&_).
Qed.

#[local] Hint Resolve quiet_updateCamera : quiet.

Lemma quiet_renderAvatar_draw key l flip s :
  quiet s (renderAvatar_draw key l flip s).
Proof.
  unfold renderAvatar_draw.
  destruct (imageCache s !! key), (heap s !! l); try quiet_tac.
  match goal with |- context [if ?b then _ else _] => destruct b end;
    quiet_tac.
Qed.

#[local] Hint Resolve quiet_renderAvatar_draw : quiet.

Lemma quiet_set_suspended v s : quiet s (set_suspended v s).
Proof. by apply quiet_same. Qed.

(** A call of [renderAvatar] either starts no load, or starts one load for
    a key that the cache does not hold. *)
Lemma renderAvatar_cases l s :
  quiet s (renderAvatar l s) \/
  exists key fd flip,
    imageCache s !! key = None /\
    renderAvatar l s =
      set_suspended (suspended s ++ [mkSuspended key fd l flip])
        (loadAvatarImage key fd s).
Proof.
  unfold renderAvatar.
  destruct (heap s !! l) as [player|]; [|left; quiet_tac].
  destruct (avatars s !! avatar player) as [av|]; [|left; quiet_tac].
  destruct (frameData av (actualDirection (direction_of player))
              (frame_of player)) as [fd|]; [|left; quiet_tac].
  destruct (imageCache s !! cacheKey player (direction_of player)
              (frame_of player)) eqn:Hc; [left; quiet_tac|].
  right. eauto.
Qed.

Lemma renderAvatar_loads key l s :
  imageCache (renderAvatar l s) = imageCache s /\
  (is_Some (imageCache s !! key) ->
   loads_started key (renderAvatar l s) = loads_started key s) /\
  (loads_started key s <= loads_started key (renderAvatar l s)
   <= S (loads_started key s))%nat.
Proof.
  destruct (renderAvatar_cases l s) as [[Hc Hl]|(k & fd & flip & Hmiss & ->)].
  - rewrite Hl. split; [exact Hc|]. split; [reflexivity | lia].
  - unfold loadAvatarImage.
    assert (Hcount : loads_started key
                       (set_suspended (suspended s ++ [mkSuspended k fd l flip])
                          (log (LoadStarted k fd) s))
                     = (loads_started key s
                        + if String.eqb k key then 1 else 0)%nat).
    { exact (loads_started_log key (LoadStarted k fd) s). }
    rewrite Hcount. split; [reflexivity|]. split.
    + intros [img Himg]. destruct (String.eqb_spec k key) as [->|_]; [|lia].
      congruence.
    + destruct (String.eqb k key); lia.
Qed.

Lemma renderAvatar_resume_cache i w h s :
  imageCache (renderAvatar_resume i w h s) =
    match suspended s !! i with
    | Some k => <[sus_key k := mkImage (sus_data k) w h]> (imageCache s)
    | None => imageCache s
    end /\
  forall key, loads_started key (renderAvatar_resume i w h s)
              = loads_started key s.
Proof.
  unfold renderAvatar_resume.
  destruct (suspended s !! i) as [k|]; [|split; reflexivity].
  match goal with |- context [renderAvatar_draw ?a ?b ?c ?t] =>
    destruct (quiet_renderAvatar_draw a b c t) as [-> Hl] end.
  split; [reflexivity|]. intros key. by rewrite Hl.
Qed.

(** Keeping a cached key is closed under sequencing, and every step that
    starts no load at all keeps every cached key. *)
Lemma cached_refl key s : keeps_cached key s s.
Proof. intros Hin. by split. Qed.

Lemma cached_trans key s1 s2 s3 :
  keeps_cached key s1 s2 -> keeps_cached key s2 s3 -> keeps_cached key s1 s3.
Proof.
  intros H12 H23 Hin. destruct (H12 Hin) as [Hin2 Hl2].
  destruct (H23 Hin2) as [Hin3 Hl3]. split; [exact Hin3 | congruence].
Qed.

Lemma cached_quiet key s s' : quiet s s' -> keeps_cached key s s'.
Proof. intros [Hc Hl] Hin. rewrite Hc. split; [exact Hin | apply Hl]. Qed.

Lemma cached_renderAvatar key l s : keeps_cached key s (renderAvatar l s).
Proof.
  intros Hin. destruct (renderAvatar_loads key l s) as (-> & Hl & _). auto.
Qed.

Lemma cached_renderAvatar_resume key i w h s :
  keeps_cached key s (renderAvatar_resume i w h s).
Proof.
  intros Hin. destruct (renderAvatar_resume_cache i w h s) as [-> Hl].
  split; [|apply Hl].
  destruct (suspended s !! i) as [k|]; [|exact Hin].
  destruct (decide (sus_key k = key)) as [->|Hne].
  - rewrite lookup_insert_eq. eauto.
  - by rewrite lookup_insert_ne.
Qed.

Create HintDb cached.

#[local] Hint Resolve cached_refl cached_renderAvatar
  cached_renderAvatar_resume : cached.

(** [keeps_cached key s (g t)] from [keeps_cached key s t] when the last
    operation [g] keeps the key. *)
Ltac keep :=
  lazymatch goal with
  | |- keeps_cached ?key ?s (?g ?t) =>
      apply (cached_trans key s t);
      [| first [ solve [auto with cached]
               | apply cached_quiet;
                 first [ solve [auto with quiet]
                       | apply quiet_log; discriminate
                       | apply quiet_same; reflexivity ] ] ]
  end.

Ltac cached_tac := repeat keep; auto with cached.

Lemma cached_render key s : keeps_cached key s (render s).
Proof.
  unfold render. destruct (worldImage s); simpl; [|cached_tac].
  match goal with |- context [first_player ?t] =>
    destruct (first_player t) end; cached_tac.
Qed.

#[local] Hint Resolve cached_render : cached.

Lemma cached_updateMyPosition key d s :
  keeps_cached key s (updateMyPosition d s).
Proof. unfold updateMyPosition. destruct (myPlayer s); cached_tac. Qed.

#[local] Hint Resolve cached_updateMyPosition : cached.

Lemma cached_sendMoveCommand key k s :
  keeps_cached key s (sendMoveCommand k s).
Proof.
  unfold sendMoveCommand, socket_send.
  destruct (socket_open s); simpl; [|cached_tac].
  destruct (keyCodeToDirection k) as [d|]; [|cached_tac].
  destruct (myPlayer s); cached_tac.
Qed.

Lemma cached_sendStopCommand key s : keeps_cached key s (sendStopCommand s).
Proof.
  unfold sendStopCommand, socket_send.
  destruct (socket_open s); simpl; cached_tac.
Qed.

#[local] Hint Resolve cached_sendMoveCommand cached_sendStopCommand : cached.

Lemma cached_sendMoveCommandForPressedKeys key s :
  keeps_cached key s (sendMoveCommandForPressedKeys s).
Proof.
  unfold sendMoveCommandForPressedKeys.
  induction (pressedKeys s) as [|[k b] rest IH]; simpl; [cached_tac|].
  destruct b; [cached_tac | exact IH].
Qed.

#[local] Hint Resolve cached_sendMoveCommandForPressedKeys : cached.

Lemma cached_handleKeyDown key code s :
  keeps_cached key s (handleKeyDown code s).
Proof.
  unfold handleKeyDown.
  destruct (includes code arrowKeys); simpl; [|cached_tac].
  destruct (is_pressed code s); cached_tac.
Qed.

Lemma cached_handleKeyUp key code s :
  keeps_cached key s (handleKeyUp code s).
Proof.
  unfold handleKeyUp.
  destruct (includes code arrowKeys); simpl; [|cached_tac].
  match goal with |- context [negb ?b] => destruct b end; simpl; cached_tac.
Qed.

Lemma cached_onmessage key data s : keeps_cached key s (onmessage data s).
Proof.
  unfold onmessage, handleServerMessage.
  destruct data as [[] ? ? ? ?| ? ?| ?| ?| ? ?| ? ?| ?]; simpl;
    try solve [cached_tac].
  rewrite lookup_app_r by lia. rewrite Nat.sub_diag. simpl. cached_tac.
Qed.

(** Once the cache holds a key, every event keeps it there and starts no
    load for it. *)
Lemma step_cached key s e : keeps_cached key s (step s e).
Proof.
  destruct e as [code|code| | |data|w h| |l|i w h]; simpl;
    auto using cached_handleKeyDown, cached_handleKeyUp, cached_onmessage
      with cached.
  - unfold onopen, joinGame, socket_send. cached_tac.
  - unfold onclose. cached_tac.
  - cached_tac.
Qed.

Lemma run_cached key es : forall s, keeps_cached key s (run s es).
Proof.
  induction es as [|e es IH]; intros s; [apply cached_refl|].
  apply (cached_trans key s (step s e)); [apply step_cached | apply IH].
Qed.

(** C10, as the code has it.  A call of [renderAvatar] starts a load for a
    key only when the image cache does not hold the key at that moment,
    and then one load; a load that completes puts its image into the
    cache under its key; and from then on no event starts a load for that
    key.  The cache holds completed images only, so this bounds the loads
    after the first completion, not the loads in flight before it. *)
Theorem load_only_on_cache_miss (s : GameClient) (key : string) :
  (forall l, is_Some (imageCache s !! key) ->
             loads_started key (renderAvatar l s) = loads_started key s) /\
  (forall l, (loads_started key s <= loads_started key (renderAvatar l s)
              <= S (loads_started key s))%nat) /\
  (forall i w h k,
      suspended s !! i = Some k -> sus_key k = key ->
      imageCache (renderAvatar_resume i w h s) !! key
        = Some (mkImage (sus_data k) w h)) /\
  (forall es, is_Some (imageCache s !! key) ->
              is_Some (imageCache (run s es) !! key) /\
              loads_started key (run s es) = loads_started key s).
Proof.
  split; [|split; [|split]].
  - intros l Hin. destruct (renderAvatar_loads key l s) as (_ & Hl & _).
    by apply Hl.
  - intros l. by destruct (renderAvatar_loads key l s) as (_ & _ & Hl).
  - intros i w h k Hk <-.
    destruct (renderAvatar_resume_cache i w h s) as [-> _].
    rewrite Hk. apply lookup_insert_eq.
  - intros es Hin. by apply (run_cached key es s).
Qed.

Lemma load_only_on_cache_miss_witness :
  let loaded := run joined [ev_imageLoaded 0%nat 32 48] in
  imageCache (renderAvatar_resume 0%nat 32 48 joined) !! "hero_south_0"
    = Some (mkImage "s0" 32 48) /\
  loads_started "hero_south_0" (renderAvatar 0%nat loaded)
    = loads_started "hero_south_0" loaded /\
  (is_Some (imageCache
              (run loaded
                 [ev_keydown "ArrowRight";
                  ev_message (in_players_moved [("p2", set_x 316 p2)]);
                  ev_renderAvatar 0%nat]) !! "hero_south_0") /\
   loads_started "hero_south_0"
     (run loaded
        [ev_keydown "ArrowRight";
         ev_message (in_players_moved [("p2", set_x 316 p2)]);
         ev_renderAvatar 0%nat])
   = loads_started "hero_south_0" loaded).
Proof.
  intros loaded.
  destruct (load_only_on_cache_miss joined "hero_south_0")
    as (_ & _ & Hdone & _).
  destruct (load_only_on_cache_miss loaded "hero_south_0")
    as (Hhit & _ & _ & Hlater).
  assert (Hcached : is_Some (imageCache loaded !! "hero_south_0")).
  { exists (mkImage "s0" 32 48). vm_compute. reflexivity. }
  split; [|split].
  - apply (Hdone 0%nat 32%Z 48%Z (mkSuspended "hero_south_0" "s0" 0%nat false));
      reflexivity.
  - apply Hhit. exact Hcached.
  - apply Hlater. exact Hcached.
Defined.

(** The claim as stated fails: the render pass of the join and the render
    pass of the next inbound [players_moved] both reach the first player
    before any image load has completed, and start two loads for the same
    key, each with a suspended call of its own. *)
Lemma two_passes_start_two_loads :
  let s := run joined
             [ev_message (in_players_moved [("p2", set_x 316 p2)])] in
  imageCache s !! "hero_south_0" = None /\
  loads_started "hero_south_0" s = 2%nat /\
  ~ single_load "hero_south_0" s /\
  suspended s = [mkSuspended "hero_south_0" "s0" 0%nat false;
                 mkSuspended "hero_south_0" "s0" 0%nat false].
Proof.
  intros s.
  assert (Hn : loads_started "hero_south_0" s = 2%nat)
    by (vm_compute; reflexivity).
  split; [vm_compute; reflexivity|]. split; [exact Hn|]. split.
  - unfold single_load. rewrite Hn. lia.
  - vm_compute. reflexivity.
Qed.

(** * Further properties of the handlers *)


Section FootprintOfEvents.
Context {A : Type} (proj : GameClient -> A).

Lemma footprint_connection s :
  ignores proj set_socket -> ignores proj set_trace ->
  proj (onopen s) = proj s /\ proj (onclose s) = proj s.
Proof.
  intros Hs Ht. unfold onopen, onclose, joinGame, socket_send.
  split; [|apply Hs]. rewrite footprint_log by assumption. apply Hs.
Qed.

(** Events other than key and connection events. *)
Lemma footprint_step s e :
  ignores proj set_heap -> ignores proj set_players ->
  ignores proj set_playerKeys ->
  ignores proj set_avatars -> ignores proj set_myPlayerId ->
  ignores proj set_myPlayer -> ignores proj set_trace ->
  ignores proj set_cameraX -> ignores proj set_cameraY ->
  ignores proj set_canvasWidth -> ignores proj set_canvasHeight ->
  ignores proj set_suspended -> ignores proj set_imageCache ->
  match e with
  | ev_keydown _ | ev_keyup _ | ev_open | ev_close => True
  | _ => proj (step s e) = proj s
  end.
Proof.
  intros Hh Hp Hk Ha Hi Hm Ht Hx Hy Hcw Hch Hs Hc.
  destruct e as [code|code| | |data|w h| |l|i w h]; simpl; try exact I.
  - by apply footprint_onmessage.
  - rewrite footprint_render, footprint_updateCamera by assumption.
    by rewrite Hch, Hcw.
  - by apply footprint_render.
  - by apply footprint_renderAvatar.
  - by apply footprint_renderAvatar_resume.
Qed.
End FootprintOfEvents.

(** ** Key events *)

Lemma get_set_property_eq {A} k (v : A) obj :
  get_property k (set_property k v obj) = Some v.
Proof.
  induction obj as [|[k' v'] rest IH]; simpl.
  - by rewrite String.eqb_refl.
  - destruct (String.eqb_spec k k') as [->|Hne]; simpl.
    + by rewrite String.eqb_refl.
    + destruct (String.eqb_spec k k'); [done | exact IH].
Qed.

Lemma get_set_property_ne {A} k k' (v : A) obj :
  k <> k' -> get_property k' (set_property k v obj) = get_property k' obj.
Proof.
  intros Hne. induction obj as [|[k0 v0] rest IH]; simpl.
  - by destruct (String.eqb_spec k' k).
  - destruct (String.eqb_spec k k0) as [->|Hk]; simpl.
    + by destruct (String.eqb_spec k' k0).
    + by rewrite IH.
Qed.

Lemma set_property_keys {A} k (v : A) obj :
  In k (map fst obj) -> map fst (set_property k v obj) = map fst obj.
Proof.
  induction obj as [|[k' v'] rest IH]; simpl; [done|].
  intros Hin. destruct (String.eqb_spec k k') as [->|Hne]; simpl; [done|].
  f_equal. apply IH. by destruct Hin.
Qed.

Lemma get_property_None {A} k (obj : list (string * A)) :
  ~ In k (map fst obj) -> get_property k obj = None.
Proof.
  induction obj as [|[k' v'] rest IH]; simpl; [done|].
  intros Hnot. destruct (String.eqb_spec k k') as [->|Hne]; [tauto|].
  apply IH. tauto.
Qed.

Lemma includes_In k l : includes k l = true <-> In k l.
Proof.
  unfold includes. rewrite existsb_exists. split.
  - intros (k' & Hin & Heq). apply String.eqb_eq in Heq. by subst.
  - intros Hin. exists k. split; [done | apply String.eqb_refl].
Qed.

(** X1. A repeated key-down for the same key (keyboard auto-repeat) is
    absorbed: handling it twice gives the state of handling it once,
    whatever the key and whatever the state of the channel. *)
Theorem keydown_repeat_absorbed (code : string) (s : GameClient) :
  handleKeyDown code (handleKeyDown code s) = handleKeyDown code s.
Proof.
  destruct (includes code arrowKeys) eqn:Hinc.
  2: { unfold handleKeyDown. rewrite Hinc. reflexivity. }
  destruct (is_pressed code s) eqn:Hp.
  { unfold handleKeyDown. rewrite Hinc, Hp. simpl. rewrite Hp. reflexivity. }
  set (s1 := set_pressedKeys (set_property code true (pressedKeys s)) s).
  assert (Hfirst : handleKeyDown code s = sendMoveCommand code s1).
  { unfold handleKeyDown. rewrite Hinc, Hp. reflexivity. }
  assert (Hheld : is_pressed code (sendMoveCommand code s1) = true).
  { unfold is_pressed.
    rewrite (footprint_sendMoveCommand pressedKeys) by untouched.
    unfold s1; simpl. by rewrite get_set_property_eq. }
  rewrite Hfirst. unfold handleKeyDown. rewrite Hinc, Hheld. reflexivity.
Qed.

Lemma keys_shape_step s e : keys_shape s -> keys_shape (step s e).
Proof.
  unfold keys_shape. intros Hs.
  assert (Hset : forall code b,
             includes code arrowKeys = true ->
             map fst (set_property code b (pressedKeys s)) = arrowKeys).
  { intros code b Hinc. rewrite set_property_keys; [done|].
    rewrite Hs. by apply includes_In. }
  pose proof (footprint_step pressedKeys s e) as Hother.
  destruct e as [code|code| | |data|w h| |l|i w h]; simpl in *;
    try (rewrite Hother by untouched; exact Hs).
  - unfold handleKeyDown.
    destruct (includes code arrowKeys) eqn:Hinc; simpl; [|exact Hs].
    destruct (is_pressed code s); [exact Hs|].
    rewrite (footprint_sendMoveCommand pressedKeys) by untouched. simpl. auto.
  - unfold handleKeyUp.
    destruct (includes code arrowKeys) eqn:Hinc; simpl; [|exact Hs].
    match goal with |- context [negb ?b] => destruct b end; simpl.
    + rewrite (footprint_sendMoveCommandForPressedKeys pressedKeys)
        by untouched. simpl. auto.
    + rewrite (footprint_sendStopCommand pressedKeys) by untouched.
      simpl. auto.
  - exact Hs.
  - exact Hs.
Qed.

(** X2. [this.pressedKeys] keeps its four properties in the order
    ArrowUp, ArrowDown, ArrowLeft, ArrowRight under every sequence of
    events, and no other key is ever recorded as pressed. *)
Theorem pressedKeys_shape_invariant (s : GameClient) (es : list Event) :
  keys_shape s ->
  keys_shape (run s es) /\
  (forall code, includes code arrowKeys = false ->
                is_pressed code (run s es) = false).
Proof.
  intros Hs.
  assert (Hrun : keys_shape (run s es)).
  { revert s Hs. induction es as [|e es IH]; intros s Hs; [exact Hs|].
    apply (IH (step s e)). by apply keys_shape_step. }
  split; [exact Hrun|].
  intros code Hinc. unfold is_pressed. rewrite get_property_None; [done|].
  rewrite Hrun. intros Hin. apply includes_In in Hin. congruence.
Qed.

Lemma pressedKeys_shape_invariant_witness :
  keys_shape (run (initial 800 600)
                [ev_keydown "KeyW"; ev_open; ev_keydown "ArrowLeft";
                 ev_keyup "ArrowUp"]) /\
  is_pressed "KeyW"
    (run (initial 800 600)
       [ev_keydown "KeyW"; ev_open; ev_keydown "ArrowLeft";
        ev_keyup "ArrowUp"]) = false.
Proof.
  destruct (pressedKeys_shape_invariant (initial 800 600)
              [ev_keydown "KeyW"; ev_open; ev_keydown "ArrowLeft";
               ev_keyup "ArrowUp"] eq_refl) as [Hshape Hother].
  split; [exact Hshape | apply Hother; reflexivity].
Defined.

(** ** What is sent, and when *)

Section Appends.
Context (P : Effect -> Prop).

Lemma appends_refl s : appends P s s.
Proof. exists []. by rewrite app_nil_r. Qed.

Lemma appends_trans s1 s2 s3 :
  appends P s1 s2 -> appends P s2 s3 -> appends P s1 s3.
Proof.
  intros (n1 & H1 & F1) (n2 & H2 & F2). exists (n1 ++ n2).
  rewrite H2, H1, app_assoc. split; [done|]. by apply Forall_app.
Qed.

Lemma appends_same s s' : trace s' = trace s -> appends P s s'.
Proof. intros H. exists []. by rewrite H, app_nil_r. Qed.

Lemma appends_log e s : P e -> appends P s (log e s).
Proof. intros He. eexists. split; [reflexivity|]. by repeat constructor. Qed.
End Appends.

Lemma appends_weaken (P Q : Effect -> Prop) s s' :
  (forall e, P e -> Q e) -> appends P s s' -> appends Q s s'.
Proof.
  intros HPQ (new & Hnew & HF). exists new. split; [done|].
  eapply Forall_impl; [exact HF|]. intros o. apply HPQ.
Qed.

Lemma silent_sent_since s s' : appends not_sent s s' -> sent_since s s' = [].
Proof.
  intros (new & Hnew & HF). unfold sent_since.
  rewrite (effects_since_app s s' new Hnew). clear Hnew.
  induction HF as [|[e snap] rest He _ IH]; [reflexivity|].
  simpl. destruct e; simpl in *; [contradiction|exact IH..].
Qed.

Lemma appends_sent P s s' :
  appends P s s' -> sent s' = sent s ++ sent_since s s'.
Proof.
  intros (new & Hnew & _). unfold sent, sent_since.
  rewrite (effects_since_app s s' new Hnew), Hnew. apply omap_app.
Qed.

Create HintDb appends.

#[local] Hint Resolve appends_refl : appends.

(** [appends P s (g t)] from [appends P s t] when [g] adds only effects
    that satisfy [P]. *)
Ltac peel_trace :=
  lazymatch goal with
  | |- appends ?P ?s (?g ?t) =>
      apply (appends_trans P s t);
      [| first [ solve [auto with appends]
               | apply appends_log; exact I
               | apply appends_same; reflexivity ] ]
  end.

Ltac trace_tac := repeat peel_trace; auto with appends.

Lemma silent_updateCamera s : appends not_sent s (updateCamera s).
Proof.
  apply appends_same. by destruct (updateCamera_frame s) as (_&_&_&_&?&_).
Qed.

#[local] Hint Resolve silent_updateCamera : appends.

Lemma silent_renderAvatar_draw key l flip s :
  appends not_sent s (renderAvatar_draw key l flip s).
Proof.
  unfold renderAvatar_draw.
  destruct (imageCache s !! key), (heap s !! l); try trace_tac.
  match goal with |- context [if ?b then _ else _] => destruct b end;
    trace_tac.
Qed.

#[local] Hint Resolve silent_renderAvatar_draw : appends.

Lemma silent_renderAvatar l s : appends not_sent s (renderAvatar l s).
Proof.
  unfold renderAvatar, loadAvatarImage.
  destruct (heap s !! l) as [player|]; [|trace_tac].
  destruct (avatars s !! avatar player) as [av|]; [|trace_tac].
  destruct (frameData _ _ _); [|trace_tac].
  destruct (imageCache s !! _); trace_tac.
Qed.

Lemma silent_renderAvatar_resume i w h s :
  appends not_sent s (renderAvatar_resume i w h s).
Proof.
  unfold renderAvatar_resume. destruct (suspended s !! i); trace_tac.
Qed.

#[local] Hint Resolve silent_renderAvatar silent_renderAvatar_resume : appends.

Lemma silent_render s : appends not_sent s (render s).
Proof.
  unfold render. destruct (worldImage s); simpl; [|trace_tac].
  match goal with |- context [first_player ?t] =>
    destruct (first_player t) end; trace_tac.
Qed.

#[local] Hint Resolve silent_render : appends.

Lemma silent_onmessage data s : appends not_sent s (onmessage data s).
Proof.
  unfold onmessage, handleServerMessage.
  destruct data as [[] ? ? ? ?| ? ?| ?| ?| ? ?| ? ?| ?]; simpl;
    try solve [trace_tac].
  rewrite lookup_app_r by lia. rewrite Nat.sub_diag. simpl. trace_tac.
Qed.

#[local] Hint Resolve silent_onmessage : appends.

(** Events that are neither key events nor the opening of the channel
    send nothing. *)
Lemma silent_step s e :
  match e with
  | ev_keydown _ | ev_keyup _ | ev_open => True
  | _ => appends not_sent s (step s e)
  end.
Proof.
  destruct e; simpl; try exact I; unfold onclose; trace_tac.
Qed.

Lemma closed_sendMoveCommand k s :
  socket_open s = false -> sendMoveCommand k s = s.
Proof. intros H. unfold sendMoveCommand. by rewrite H. Qed.

Lemma closed_sendStopCommand s :
  socket_open s = false -> sendStopCommand s = s.
Proof. intros H. unfold sendStopCommand. by rewrite H. Qed.

Lemma closed_key_event s e :
  socket_open s = false ->
  match e with
  | ev_keydown _ | ev_keyup _ =>
      trace (step s e) = trace s /\ socket (step s e) = socket s
  | _ => True
  end.
Proof.
  intros Hc. destruct e as [code|code| | |data|w h| |l|i w h]; try exact I; simpl.
  - unfold handleKeyDown.
    destruct (includes code arrowKeys); [|by split]. simpl.
    destruct (is_pressed code s); [by split|].
    rewrite closed_sendMoveCommand by exact Hc. by split.
  - unfold handleKeyUp, sendMoveCommandForPressedKeys.
    destruct (includes code arrowKeys); [|by split]. simpl.
    set (s1 := set_pressedKeys _ s).
    assert (H1 : socket_open s1 = false) by exact Hc.
    match goal with |- context [negb ?b] => destruct b end; simpl.
    + assert (Hloop : forall entries,
                 sendMoveCommandForPressedKeys_loop entries s1 = s1).
      { induction entries as [|[k b] rest IH]; [done|]. simpl.
        destruct b; [by apply closed_sendMoveCommand | exact IH]. }
      rewrite Hloop. by split.
    + rewrite closed_sendStopCommand by exact H1. by split.
Qed.

Lemma socket_step s e :
  match e with
  | ev_open | ev_close => True
  | _ => socket (step s e) = socket s
  end.
Proof.
  pose proof (footprint_step socket s e) as Hother.
  destruct e as [code|code| | |data|w h| |l|i w h]; try exact I;
    try (apply Hother; untouched).
  - by apply footprint_handleKeyDown; untouched.
  - by apply footprint_handleKeyUp; untouched.
Qed.

Lemma closed_step s e :
  socket_open s = false -> e <> ev_open ->
  appends not_sent s (step s e) /\ socket_open (step s e) = false.
Proof.
  intros Hc He.
  pose proof (silent_step s e) as Hsilent.
  pose proof (closed_key_event s e Hc) as Hkey.
  pose proof (socket_step s e) as Hsock.
  unfold socket_open in *.
  destruct e as [code|code| | |data|w h| |l|i w h];
    try (split; [exact Hsilent | by rewrite Hsock]).
  - destruct Hkey as [Ht Hs]. split; [by apply appends_same | by rewrite Hs].
  - destruct Hkey as [Ht Hs]. split; [by apply appends_same | by rewrite Hs].
  - congruence.
  - split; [exact Hsilent | reflexivity].
Qed.

(** X3. While the channel is not open nothing is sent: under every
    sequence of events that does not open the channel, no message leaves
    and the channel stays not open. *)
Theorem nothing_sent_while_not_open (s : GameClient) (es : list Event) :
  socket_open s = false -> Forall (fun e => e <> ev_open) es ->
  sent_since s (run s es) = [] /\ socket_open (run s es) = false.
Proof.
  intros Hc Hes.
  assert (H : appends not_sent s (run s es) /\ socket_open (run s es) = false).
  { revert s Hc. induction Hes as [|e es He _ IH]; intros s Hc.
    - split; [apply appends_refl | exact Hc].
    - destruct (closed_step s e Hc He) as [Hstep Hc'].
      destruct (IH (step s e) Hc') as [Hrest Hfinal].
      split; [|exact Hfinal]. eapply appends_trans; [exact Hstep|exact Hrest]. }
  destruct H as [Hsilent Hfinal]. split; [|exact Hfinal].
  by apply silent_sent_since.
Qed.

Lemma nothing_sent_while_not_open_witness :
  sent_since (initial 800 600)
    (run (initial 800 600)
       [ev_keydown "ArrowUp"; ev_message join_ok; ev_keyup "ArrowUp";
        ev_resize 640 480; ev_close]) = [] /\
  socket_open
    (run (initial 800 600)
       [ev_keydown "ArrowUp"; ev_message join_ok; ev_keyup "ArrowUp";
        ev_resize 640 480; ev_close]) = false.
Proof.
  apply (nothing_sent_while_not_open (initial 800 600)); [reflexivity|].
  repeat constructor; discriminate.
Defined.

Lemma onmessage_trace data s :
  exists new,
    trace (onmessage data s) =
    trace s ++
      (if worldImage s
       then (Painted (cameraX (onmessage data s)) (cameraY (onmessage data s)),
             position <$> store_player (onmessage data s)) :: new
       else []) /\
    first_avatar_effects (position <$> store_player (onmessage data s)) new.
Proof.
  unfold onmessage, handleServerMessage.
  match goal with |- context [render ?t] =>
    set (inner := t);
    assert (Hin : trace inner = trace s /\ worldImage inner = worldImage s)
  end.
  { unfold inner.
    destruct data as [[] ? ? ? ?| ? ?| ?| ?| ? ?| ? ?| ?]; simpl;
      try (split; reflexivity).
    - rewrite (footprint_updateCamera trace), (footprint_updateCamera worldImage)
        by untouched.
      split; reflexivity.
    - rewrite lookup_app_r by lia. rewrite Nat.sub_diag. split; reflexivity. }
  destruct Hin as [Ht Hw].
  destruct (trace_render inner) as (new & Htr & Hnew).
  exists new. rewrite store_player_render, Htr, Ht, Hw.
  split; [reflexivity | exact Hnew].
Qed.

(** X4. An inbound message of any kind sends nothing.  As the world image
    object exists, its handler repaints exactly once, and the paint sees
    the store as the message left it; the paint is followed by what the
    first call of [renderAvatar] of that render pass adds for the first
    player of the store, at most one started load or one drawn avatar,
    which sees the same store. *)
Theorem inbound_message_repaints_only (data : WireMessage) (s : GameClient) :
  let s' := onmessage data s in
  sent_since s s' = [] /\
  (worldImage s = true ->
   exists new,
     effects_since s s' =
       (Painted (cameraX s') (cameraY s'), position <$> store_player s')
         :: new /\
     first_avatar_effects (position <$> store_player s') new) /\
  (worldImage s = false -> trace s' = trace s).
Proof.
  intros s'. destruct (onmessage_trace data s) as (new & Ht & Hnew).
  fold s' in Ht, Hnew.
  split; [|split].
  - by apply silent_sent_since, silent_onmessage.
  - intros Hw. rewrite Hw in Ht. exists new.
    split; [by apply effects_since_app | exact Hnew].
  - intros Hw. rewrite Hw in Ht. by rewrite app_nil_r in Ht.
Qed.

Lemma inbound_message_repaints_only_witness :
  let s' := onmessage (in_players_moved [("p1", set_x 200 p1)]) joined in
  (exists new,
      effects_since joined s' =
        (Painted (cameraX s') (cameraY s'), position <$> store_player s')
          :: new /\
      first_avatar_effects (position <$> store_player s') new) /\
  trace (onmessage (in_unknown "ping") (set_worldImage false joined))
  = trace (set_worldImage false joined).
Proof.
  split.
  - apply (inbound_message_repaints_only
             (in_players_moved [("p1", set_x 200 p1)]) joined). reflexivity.
  - apply (inbound_message_repaints_only (in_unknown "ping")
             (set_worldImage false joined)). reflexivity.
Defined.

(** In the example session the handler of a [players_moved] for the
    controlled player paints and then starts the load for the first
    player's frame, both seeing the store entry at (200,100). *)
Example inbound_message_effects :
  effects_since joined
    (onmessage (in_players_moved [("p1", set_x 200 p1)]) joined) =
  [(Painted 0 0, Some (200, 100)%Z);
   (LoadStarted "hero_south_0" "s0", Some (200, 100)%Z)].
Proof. vm_compute. reflexivity. Qed.

(** Every handler only adds to the trace. *)
Lemma extends_of_silent s s' : appends not_sent s s' -> appends anything s s'.
Proof. apply appends_weaken. by intros. Qed.

Lemma extends_render s : appends anything s (render s).
Proof. apply extends_of_silent, silent_render. Qed.

#[local] Hint Resolve extends_render : appends.

Lemma extends_updateMyPosition d s : appends anything s (updateMyPosition d s).
Proof. unfold updateMyPosition. destruct (myPlayer s); trace_tac. Qed.

#[local] Hint Resolve extends_updateMyPosition : appends.

Lemma extends_sendMoveCommand k s : appends anything s (sendMoveCommand k s).
Proof.
  unfold sendMoveCommand, socket_send.
  destruct (socket_open s); simpl; [|trace_tac].
  destruct (keyCodeToDirection k) as [d|]; [|trace_tac].
  destruct (myPlayer s); trace_tac.
Qed.

Lemma extends_sendStopCommand s : appends anything s (sendStopCommand s).
Proof.
  unfold sendStopCommand, socket_send. destruct (socket_open s); simpl; trace_tac.
Qed.

#[local] Hint Resolve extends_sendMoveCommand extends_sendStopCommand : appends.

Lemma extends_sendMoveCommandForPressedKeys s :
  appends anything s (sendMoveCommandForPressedKeys s).
Proof.
  unfold sendMoveCommandForPressedKeys.
  induction (pressedKeys s) as [|[k b] rest IH]; simpl; [trace_tac|].
  destruct b; [trace_tac | exact IH].
Qed.

#[local] Hint Resolve extends_sendMoveCommandForPressedKeys : appends.

Lemma extends_step s e : appends anything s (step s e).
Proof.
  pose proof (silent_step s e) as Hsilent.
  destruct e as [code|code| | |data|w h| |l|i w h];
    try (apply extends_of_silent; exact Hsilent); simpl.
  - unfold handleKeyDown.
    destruct (includes code arrowKeys); simpl; [|trace_tac].
    destruct (is_pressed code s); trace_tac.
  - unfold handleKeyUp.
    destruct (includes code arrowKeys); simpl; [|trace_tac].
    match goal with |- context [negb ?b] => destruct b end; simpl; trace_tac.
  - unfold onopen, joinGame, socket_send. trace_tac.
Qed.

Lemma join_first_step s e : join_first s -> join_first (step s e).
Proof.
  intros [[Hnone Hclosed]|[rest Hrest]].
  - assert (Hcase : e = ev_open \/ e <> ev_open)
      by (destruct e; first [by left | by right]).
    destruct Hcase as [->|Hne].
    + right. exists []. unfold sent in *. simpl.
      rewrite omap_app, Hnone. reflexivity.
    + left. destruct (closed_step s e Hclosed Hne) as [Hsilent Hc'].
      split; [|exact Hc'].
      rewrite (appends_sent _ _ _ Hsilent), Hnone.
      by rewrite (silent_sent_since _ _ Hsilent).
  - right. exists (rest ++ sent_since s (step s e)).
    by rewrite (appends_sent _ _ _ (extends_step s e)), Hrest.
Qed.

(** X5. The join request comes first: from a state in which nothing has
    been sent and the channel is not open (as after the constructor),
    under every sequence of events, either nothing has been sent yet or
    the first message sent is [join_game] with the username "Jadon". *)
Theorem join_request_comes_first (s : GameClient) (es : list Event) :
  sent s = [] -> socket_open s = false ->
  match sent (run s es) with
  | [] => True
  | m :: _ => m = join_game "Jadon"
  end.
Proof.
  intros Hnone Hclosed.
  assert (H : join_first (run s es)).
  { assert (H0 : join_first s) by (left; by split).
    clear Hnone Hclosed. revert s H0.
    induction es as [|e es IH]; intros s H0; [exact H0|].
    apply (IH (step s e)). by apply join_first_step. }
  destruct H as [[-> _]|[rest ->]]; done.
Qed.

Lemma join_request_comes_first_witness :
  match sent (run (initial 800 600)
                [ev_keydown "ArrowUp"; ev_open; ev_message join_ok;
                 ev_keydown "ArrowLeft"; ev_keyup "ArrowUp"]) with
  | [] => True
  | m :: _ => m = join_game "Jadon"
  end.
Proof.
  apply (join_request_comes_first (initial 800 600)); reflexivity.
Defined.

(** ** The moving flag *)

Lemma moving_sendMoveCommand k s :
  moving_consistent s -> moving_consistent (sendMoveCommand k s).
Proof.
  intros Hs. unfold sendMoveCommand.
  destruct (socket_open s); simpl; [|exact Hs].
  destruct (keyCodeToDirection k) as [d|]; [|exact Hs].
  rewrite (footprint_updateMyPosition moving_consistent) by untouched.
  reflexivity.
Qed.

Lemma moving_sendStopCommand s :
  moving_consistent s -> moving_consistent (sendStopCommand s).
Proof.
  intros Hs. unfold sendStopCommand.
  destruct (socket_open s); simpl; [reflexivity | exact Hs].
Qed.

Lemma moving_step s e : moving_consistent s -> moving_consistent (step s e).
Proof.
  intros Hs. pose proof (footprint_step moving_consistent s e) as Hother.
  destruct e as [code|code| | |data|w h| |l|i w h];
    try (rewrite Hother by untouched; exact Hs); simpl.
  - unfold handleKeyDown.
    destruct (includes code arrowKeys); simpl; [|exact Hs].
    destruct (is_pressed code s); [exact Hs|].
    by apply moving_sendMoveCommand.
  - unfold handleKeyUp, sendMoveCommandForPressedKeys.
    destruct (includes code arrowKeys); simpl; [|exact Hs].
    set (s1 := set_pressedKeys _ s).
    assert (H1 : moving_consistent s1) by exact Hs.
    match goal with |- context [negb ?b] => destruct b end; simpl.
    + generalize (set_property code false (pressedKeys s)).
      intros entries. induction entries as [|[k b] rest IH]; [exact H1|].
      simpl. destruct b; [by apply moving_sendMoveCommand | exact IH].
    + by apply moving_sendStopCommand.
  - exact Hs.
  - exact Hs.
Qed.

(** X6. [isMoving] is true exactly when [lastSentDirection] holds a
    direction: the two flags agree after the constructor and every handler
    keeps them in agreement. *)
Theorem moving_flag_invariant (s : GameClient) (es : list Event) :
  moving_consistent s -> moving_consistent (run s es).
Proof.
  revert s. induction es as [|e es IH]; intros s Hs; [exact Hs|].
  apply (IH (step s e)). by apply moving_step.
Qed.

Lemma moving_flag_invariant_witness :
  moving_consistent
    (run (initial 800 600)
       [ev_open; ev_message join_ok; ev_keydown "ArrowLeft";
        ev_keydown "ArrowUp"; ev_keyup "ArrowLeft"; ev_close;
        ev_keyup "ArrowUp"]).
Proof.
  apply (moving_flag_invariant (initial 800 600)). reflexivity.
Defined.

(** ** Inbound messages and the store *)

Lemma heap_onmessage data s :
  heap (onmessage data s) = (JSON_parse data (heap s)).1.
Proof.
  unfold onmessage, handleServerMessage.
  rewrite (footprint_render heap) by untouched.
  destruct data as [[] ? ? ? ?| ? ?| ?| ?| ? ?| ? ?| ?]; simpl;
    try reflexivity.
  - by rewrite (footprint_updateCamera heap) by untouched.
  - by rewrite lookup_app_r, Nat.sub_diag by lia.
Qed.

Lemma JSON_parse_keeps data (h : list Player) l p :
  h !! l = Some p -> (JSON_parse data h).1 !! l = Some p.
Proof.
  intros Hl.
  destruct data as [ok pid kvs avs err|q av|kvs|pid|ok err|ok err|act];
    simpl; try exact Hl.
  - by apply parse_object_spec.
  - by apply lookup_app_l_Some.
  - by apply parse_object_spec.
Qed.

Lemma myPlayer_onmessage data s :
  match data with
  | in_join_game true _ _ _ _ => True
  | _ => myPlayer (onmessage data s) = myPlayer s
  end.
Proof.
  unfold onmessage, handleServerMessage.
  destruct data as [[] ? ? ? ?| ? ?| ?| ?| ? ?| ? ?| ?]; try exact I;
    rewrite (footprint_render myPlayer) by untouched; simpl; try reflexivity.
  by rewrite lookup_app_r, Nat.sub_diag by lia.
Qed.

(** X7. No inbound message changes a player object that already exists:
    updates arrive as new objects.  Apart from a successful join, no
    message re-binds [this.myPlayer] either, so the controlled player
    object keeps the locally predicted state; in particular a failed
    [move] or [stop] acknowledgement rolls nothing back. *)
Theorem inbound_keeps_objects (data : WireMessage) (s : GameClient) :
  (forall l p, heap s !! l = Some p -> heap (onmessage data s) !! l = Some p) /\
  match data with
  | in_join_game true _ _ _ _ => True
  | _ => forall p, my_player s = Some p -> my_player (onmessage data s) = Some p
  end.
Proof.
  assert (Hkeep : forall l p, heap s !! l = Some p ->
                              heap (onmessage data s) !! l = Some p).
  { intros l p Hl. rewrite heap_onmessage. by apply JSON_parse_keeps. }
  split; [exact Hkeep|].
  pose proof (myPlayer_onmessage data s) as Hmy.
  assert (Hgen : myPlayer (onmessage data s) = myPlayer s ->
                 forall p, my_player s = Some p ->
                           my_player (onmessage data s) = Some p).
  { intros Heq p. unfold my_player. rewrite Heq.
    destruct (myPlayer s) as [l|]; simpl; [apply Hkeep | done]. }
  destruct data as [[] ? ? ? ?| ? ?| ?| ?| ? ?| ? ?| ?]; try exact I;
    by apply Hgen.
Qed.

Lemma inbound_keeps_objects_witness :
  let predicted := sendMoveCommand "ArrowRight" joined in
  my_player (onmessage (in_move false "rejected") predicted)
    = Some (set_facing (Some "right") (set_x 116 p1)) /\
  my_player (onmessage (in_players_moved [("p1", set_x 200 p1)]) predicted)
    = Some (set_facing (Some "right") (set_x 116 p1)).
Proof.
  intros predicted. split.
  - destruct (inbound_keeps_objects (in_move false "rejected") predicted)
      as [_ H]. apply H. reflexivity.
  - destruct (inbound_keeps_objects
                (in_players_moved [("p1", set_x 200 p1)]) predicted)
      as [_ H]. apply H. reflexivity.
Defined.

(** X8. A successful join replaces the store wholesale: afterwards the
    entry under every id is exactly what the message's player table gives
    that id (nothing of the previous table survives), the avatars are the
    message's, and the controlled player is the entry under the assigned
    id, absent if the table lacks that id.  A failed join leaves the
    player table, the avatars and the controlled player as they were. *)
Theorem join_replaces_store
  (s : GameClient) (pid : string) (kvs : list (string * Player))
  (avs : gmap string Avatar) (err : string) :
  let s' := onmessage (in_join_game true pid kvs avs err) s in
  let f := onmessage (in_join_game false pid kvs avs err) s in
  (forall k, entry k s' = wire_get k kvs) /\
  avatars s' = avs /\ myPlayerId s' = Some pid /\
  my_player s' = wire_get pid kvs /\
  (players f = players s /\ avatars f = avatars s /\
   myPlayerId f = myPlayerId s /\ myPlayer f = myPlayer s).
Proof.
  intros s' f.
  destruct (onmessage_join_store pid kvs avs err s) as (Hh & Hp & Hid & Hmy).
  fold s' in Hh, Hp, Hid, Hmy.
  destruct (parse_object_spec kvs (heap s)) as [_ Hget].
  assert (Hentry : forall k, entry k s' = wire_get k kvs).
  { intros k. unfold entry. rewrite Hp, Hh. specialize (Hget k).
    destruct (wire_get k kvs) as [p|].
    - destruct Hget as (l & -> & Hl). exact Hl.
    - by rewrite Hget. }
  split; [exact Hentry|]. split; [|split; [exact Hid|split]].
  - unfold s', onmessage, handleServerMessage; simpl.
    rewrite (footprint_render avatars), (footprint_updateCamera avatars)
      by untouched. reflexivity.
  - rewrite <- (Hentry pid). unfold my_player, entry. by rewrite Hmy, Hp.
  - unfold f, onmessage, handleServerMessage; simpl.
    rewrite (footprint_render players), (footprint_render avatars),
      (footprint_render myPlayerId), (footprint_render myPlayer) by untouched.
    repeat split.
Qed.

Lemma onmessage_player_joined_store p av s :
  let s' := onmessage (in_player_joined p av) s in
  heap s' = heap s ++ [p] /\
  players s' = <[id p := length (heap s)]> (players s) /\
  avatars s' = <[name av := av]> (avatars s).
Proof.
  unfold onmessage, handleServerMessage; simpl.
  rewrite (footprint_render heap), (footprint_render players),
    (footprint_render avatars) by untouched.
  rewrite lookup_app_r by lia. rewrite Nat.sub_diag. simpl. repeat split.
Qed.

Lemma onmessage_player_left_store pid s :
  let s' := onmessage (in_player_left pid) s in
  heap s' = heap s /\ players s' = delete pid (players s) /\
  avatars s' = avatars s /\ myPlayer s' = myPlayer s.
Proof.
  unfold onmessage, handleServerMessage; simpl.
  rewrite (footprint_render heap), (footprint_render players),
    (footprint_render avatars), (footprint_render myPlayer) by untouched.
  repeat split.
Qed.

(** X9. A [player_joined] message stores the player under the player's own
    id and the avatar under the avatar's name, and touches no other entry
    of the player table.  A [player_left] for that id then removes the
    player again, leaving the table as it was when the id was new, while
    the avatar stays known. *)
Theorem player_joined_then_left (p : Player) (av : Avatar) (s : GameClient) :
  let s1 := onmessage (in_player_joined p av) s in
  let s2 := onmessage (in_player_left (id p)) s1 in
  entry (id p) s1 = Some p /\
  avatars s1 !! name av = Some av /\
  (forall k, k <> id p -> players s1 !! k = players s !! k) /\
  entry (id p) s2 = None /\
  avatars s2 !! name av = Some av /\
  (players s !! id p = None -> players s2 = players s).
Proof.
  intros s1 s2.
  destruct (onmessage_player_joined_store p av s) as (Hh1 & Hp1 & Ha1).
  destruct (onmessage_player_left_store (id p) s1) as (Hh2 & Hp2 & Ha2 & _).
  fold s1 in Hh1, Hp1, Ha1. fold s2 in Hh2, Hp2, Ha2.
  split; [|split; [|split; [|split; [|split]]]].
  - unfold entry. rewrite Hp1, Hh1, lookup_insert_eq. simpl.
    rewrite lookup_app_r by lia. by rewrite Nat.sub_diag.
  - by rewrite Ha1, lookup_insert_eq.
  - intros k Hk. by rewrite Hp1, lookup_insert_ne.
  - unfold entry. by rewrite Hp2, lookup_delete_eq.
  - by rewrite Ha2, Ha1, lookup_insert_eq.
  - intros Hnew. rewrite Hp2, Hp1, delete_insert_eq. by apply delete_id.
Qed.

Lemma player_joined_then_left_witness :
  let p3 := mkPlayer "p3" 40 50 None None "Kim" "hero" in
  players (onmessage (in_player_joined p3 hero) joined) !! "p2"
    = players joined !! "p2" /\
  players (onmessage (in_player_left "p3")
             (onmessage (in_player_joined p3 hero) joined))
    = players joined.
Proof.
  intros p3.
  destruct (player_joined_then_left p3 hero joined)
    as (_ & _ & Hother & _ & _ & Hback).
  split; [apply Hother; discriminate | apply Hback; reflexivity].
Defined.

(** ** One step of local prediction *)

(** X10. One predicted step, from a position inside the world, changes a
    single coordinate by at most the step of 16 and nothing else of the
    player; a direction other than up, down, left, right changes nothing.
    A step and the opposite step cancel whenever the first one is not cut
    short by the world edge. *)
Theorem applyMove_one_step (d : string) (p : Player) :
  in_world p ->
  let p' := applyMove d p in
  (id p' = id p /\ facing p' = facing p /\
   animationFrame p' = animationFrame p /\
   username p' = username p /\ avatar p' = avatar p) /\
  (x p' = x p \/ y p' = y p) /\
  (Z.abs (x p' - x p) + Z.abs (y p' - y p) <= moveSpeed)%Z /\
  (d <> "up" -> d <> "down" -> d <> "left" -> d <> "right" -> p' = p) /\
  ((moveSpeed <= y p)%Z -> applyMove "down" (applyMove "up" p) = p) /\
  ((y p + moveSpeed <= worldHeight)%Z ->
   applyMove "up" (applyMove "down" p) = p) /\
  ((moveSpeed <= x p)%Z -> applyMove "right" (applyMove "left" p) = p) /\
  ((x p + moveSpeed <= worldWidth)%Z ->
   applyMove "left" (applyMove "right" p) = p).
Proof.
  intros [Hx Hy] p'. unfold worldWidth, worldHeight, moveSpeed in *.
  split; [|split; [|split; [|split]]].
  - unfold p', applyMove.
    repeat (match goal with |- context [String.eqb ?a ?b] =>
              destruct (String.eqb a b) end); repeat split.
  - unfold p', applyMove.
    repeat (match goal with |- context [String.eqb ?a ?b] =>
              destruct (String.eqb a b) end); simpl; auto.
  - unfold p', applyMove, moveSpeed, worldWidth, worldHeight.
    repeat (match goal with |- context [String.eqb ?a ?b] =>
              destruct (String.eqb a b) end); simpl; lia.
  - intros Hu Hd Hl Hr. unfold p', applyMove.
    destruct (String.eqb_spec d "up"); [done|].
    destruct (String.eqb_spec d "down"); [done|].
    destruct (String.eqb_spec d "left"); [done|].
    by destruct (String.eqb_spec d "right").
  - unfold applyMove, moveSpeed, worldWidth, worldHeight; simpl.
    destruct p as [pid px py pf pa pu pv]; simpl in *.
    repeat split; intros H; unfold set_x, set_y; simpl; f_equal; lia.
Qed.

Lemma applyMove_one_step_witness :
  (Z.abs (x (applyMove "left" (set_x 5 p1)) - 5)
   + Z.abs (y (applyMove "left" (set_x 5 p1)) - 100) <= moveSpeed)%Z /\
  applyMove "jump" p1 = p1 /\
  applyMove "down" (applyMove "up" p1) = p1 /\
  applyMove "up" (applyMove "down" p1) = p1 /\
  applyMove "right" (applyMove "left" p1) = p1 /\
  applyMove "left" (applyMove "right" p1) = p1.
Proof.
  assert (Hin : forall q, (0 <= x q <= 2048)%Z -> (0 <= y q <= 2048)%Z ->
                          in_world q) by (intros; by split).
  destruct (applyMove_one_step "left" (set_x 5 p1))
    as (_ & _ & Hstep & _); [apply Hin; simpl; lia|].
  destruct (applyMove_one_step "jump" p1)
    as (_ & _ & _ & Hnone & Hud & Hdu & Hlr & Hrl); [apply Hin; simpl; lia|].
  split; [exact Hstep|].
  split; [apply Hnone; discriminate|].
  split; [apply Hud; vm_compute; discriminate|].
  split; [apply Hdu; vm_compute; discriminate|].
  split; [apply Hlr; vm_compute; discriminate|].
  apply Hrl; vm_compute; discriminate.
Defined.

(** X11. A move intent with the channel open and a controlled player
    records its direction ([lastSentDirection], [isMoving], and the
    player's facing) and, beyond the controlled player object, leaves the
    store alone: the player table, the avatars, the key state and every
    other player object are unchanged. *)
Theorem move_intent_footprint
  (s : GameClient) (k d : string) (l : loc) (p : Player) :
  socket_open s = true -> keyCodeToDirection k = Some d ->
  myPlayer s = Some l -> heap s !! l = Some p ->
  let s' := sendMoveCommand k s in
  lastSentDirection s' = Some d /\ isMoving s' = true /\
  facing <$> my_player s' = Some (Some d) /\
  players s' = players s /\ avatars s' = avatars s /\
  myPlayer s' = myPlayer s /\ pressedKeys s' = pressedKeys s /\
  (forall l', l' <> l -> heap s' !! l' = heap s !! l').
Proof.
  intros Hopen Hk Hmy Hobj s'.
  destruct (sendMoveCommand_steps s k d l p Hopen Hk Hmy Hobj)
    as (Heq & _ & Hp').
  fold s' in Hp'.
  assert (Hfacing : facing <$> my_player s' = Some (Some d)).
  { rewrite Hp'. simpl. by rewrite applyMove_set_facing. }
  unfold s'. rewrite Heq.
  rewrite (footprint_render lastSentDirection), (footprint_render isMoving),
    (footprint_render players), (footprint_render avatars),
    (footprint_render myPlayer), (footprint_render pressedKeys),
    (footprint_render heap) by untouched.
  rewrite <- Heq. fold s'. simpl.
  repeat split; try assumption.
  intros l' Hl'. by rewrite !list_lookup_alter_ne.
Qed.

Lemma move_intent_footprint_witness :
  lastSentDirection (sendMoveCommand "ArrowUp" joined) = Some "up" /\
  isMoving (sendMoveCommand "ArrowUp" joined) = true /\
  facing <$> my_player (sendMoveCommand "ArrowUp" joined) = Some (Some "up") /\
  players (sendMoveCommand "ArrowUp" joined) = players joined /\
  heap (sendMoveCommand "ArrowUp" joined) !! 1%nat = heap joined !! 1%nat.
Proof.
  destruct (move_intent_footprint joined "ArrowUp" "up" 0%nat p1
              eq_refl eq_refl eq_refl eq_refl)
    as (Hl & Hm & Hf & Hp & _ & _ & _ & Hother).
  assert (Hne : 1%nat <> 0%nat) by discriminate.
  exact (conj Hl (conj Hm (conj Hf (conj Hp (Hother 1%nat Hne))))).
Defined.

Lemma keys_shape_keys s :
  keys_shape s -> exists u d l r, pressedKeys s = keys u d l r.
Proof.
  unfold keys_shape, arrowKeys, keys. intros H.
  destruct (pressedKeys s) as [|[k1 u] [|[k2 d] [|[k3 l] [|[k4 r] [|]]]]];
    try discriminate H.
  simpl in H. injection H as -> -> -> ->. by exists u, d, l, r.
Qed.

(** X12. Releasing the only key that is held stops the player where it
    is: no player object, table entry or camera offset changes; with the
    channel open exactly one [stop] message is sent and the moving flag is
    cleared, with the channel not open nothing is sent. *)
Theorem release_last_key (s : GameClient) (code : string) :
  keys_shape s -> includes code arrowKeys = true ->
  (forall k, k <> code -> is_pressed k s = false) ->
  let s' := handleKeyUp code s in
  heap s' = heap s /\ players s' = players s /\
  cameraX s' = cameraX s /\ cameraY s' = cameraY s /\
  sent_since s s' = (if socket_open s then [stop] else []) /\
  (socket_open s = true -> isMoving s' = false /\ lastSentDirection s' = None) /\
  (forall k, is_pressed k s' = false).
Proof.
  intros Hshape Hcode Hothers s'.
  destruct (keys_shape_keys s Hshape) as (u & d & l & r & Hkeys).
  set (s1 := set_pressedKeys (set_property code false (pressedKeys s)) s).
  assert (Hnone : pressedKeys s1 = keys false false false false).
  { unfold s1; simpl. rewrite Hkeys. unfold is_pressed in Hothers.
    rewrite Hkeys in Hothers.
    destruct (includes_arrowKeys code Hcode) as [-> | [-> | [-> | ->]]];
      simpl.
    - pose proof (Hothers "ArrowDown" ltac:(discriminate)) as H1.
      pose proof (Hothers "ArrowLeft" ltac:(discriminate)) as H2.
      pose proof (Hothers "ArrowRight" ltac:(discriminate)) as H3.
      simpl in *. by subst.
    - pose proof (Hothers "ArrowUp" ltac:(discriminate)) as H1.
      pose proof (Hothers "ArrowLeft" ltac:(discriminate)) as H2.
      pose proof (Hothers "ArrowRight" ltac:(discriminate)) as H3.
      simpl in *. by subst.
    - pose proof (Hothers "ArrowUp" ltac:(discriminate)) as H1.
      pose proof (Hothers "ArrowDown" ltac:(discriminate)) as H2.
      pose proof (Hothers "ArrowRight" ltac:(discriminate)) as H3.
      simpl in *. by subst.
    - pose proof (Hothers "ArrowUp" ltac:(discriminate)) as H1.
      pose proof (Hothers "ArrowDown" ltac:(discriminate)) as H2.
      pose proof (Hothers "ArrowLeft" ltac:(discriminate)) as H3.
      simpl in *. by subst. }
  assert (Heq : s' = sendStopCommand s1).
  { unfold s', handleKeyUp. rewrite Hcode.
    cbv beta iota zeta delta [negb]. fold s1. rewrite Hnone. reflexivity. }
  assert (Hreleased : forall k, is_pressed k (sendStopCommand s1) = false).
  { intros k. unfold is_pressed.
    rewrite (footprint_sendStopCommand pressedKeys) by untouched.
    rewrite Hnone. simpl.
    by repeat (match goal with |- context [String.eqb ?a ?b] =>
                 destruct (String.eqb a b) end). }
  rewrite Heq. unfold sendStopCommand in *.
  change (socket_open s1) with (socket_open s) in *.
  destruct (socket_open s); simpl in Hreleased |- *.
  - repeat split; try done.
    unfold sent_since, effects_since; simpl. by rewrite drop_app_length.
  - repeat split; try done.
    unfold sent_since, effects_since; simpl. by rewrite drop_all.
Qed.

Lemma release_last_key_witness :
  let s := handleKeyDown "ArrowRight" joined in
  heap (handleKeyUp "ArrowRight" s) = heap s /\
  players (handleKeyUp "ArrowRight" s) = players s /\
  cameraX (handleKeyUp "ArrowRight" s) = cameraX s /\
  cameraY (handleKeyUp "ArrowRight" s) = cameraY s /\
  sent_since s (handleKeyUp "ArrowRight" s) = [stop] /\
  (isMoving (handleKeyUp "ArrowRight" s) = false /\
   lastSentDirection (handleKeyUp "ArrowRight" s) = None).
Proof.
  intros s.
  assert (Hheld : pressedKeys s = keys false false false true)
    by (vm_compute; reflexivity).
  assert (Hopen : socket_open s = true) by (vm_compute; reflexivity).
  assert (Hshape : keys_shape s) by (unfold keys_shape; by rewrite Hheld).
  assert (Hothers : forall k, k <> "ArrowRight" -> is_pressed k s = false).
  { intros k Hk. unfold is_pressed. rewrite Hheld. simpl.
    destruct (String.eqb_spec k "ArrowUp"); [reflexivity|].
    destruct (String.eqb_spec k "ArrowDown"); [reflexivity|].
    destruct (String.eqb_spec k "ArrowLeft"); [reflexivity|].
    destruct (String.eqb_spec k "ArrowRight"); [contradiction|reflexivity]. }
  destruct (release_last_key s "ArrowRight" Hshape eq_refl Hothers)
    as (Hh & Hp & Hx & Hy & Hsent & Hflags & _).
  rewrite Hopen in Hsent. specialize (Hflags Hopen).
  exact (conj Hh (conj Hp (conj Hx (conj Hy (conj Hsent Hflags))))).
Defined.

(** ** The camera follows the controlled player *)

Lemma updateCamera_idempotent s : updateCamera (updateCamera s) = updateCamera s.
Proof.
  destruct s as [cw ch wi h pl pk av mid mp ic ks ls im cx cy so su tr].
  unfold updateCamera, my_player; simpl.
  destruct (mp ≫= (fun l : nat => h !! l)) as [p|] eqn:Hc; simpl;
    rewrite ?Hc; reflexivity.
Qed.

Lemma inject_Z_sub (a b : Z) : (inject_Z (a - b) == inject_Z a - inject_Z b)%Q.
Proof. unfold Z.sub. rewrite inject_Z_plus, inject_Z_opp. reflexivity. Qed.

Lemma clamp_inside (c hi : Q) :
  (0 <= c)%Q -> (c <= hi)%Q -> (Math_max 0 (Math_min c hi) == c)%Q.
Proof.
  intros H0 Hhi. unfold Math_max, Math_min.
  rewrite (Q.min_l c hi) by exact Hhi. by apply Q.max_r.
Qed.

(** X13. The camera is recomputed from the controlled player's position
    and the canvas size alone: the previous offset does not matter and
    recomputing twice changes nothing.  While the player is at least half
    a viewport away from the world edges on an axis, the offset on that
    axis is the position minus half the viewport, which puts the player
    at the centre of the screen. *)
Theorem camera_recomputed (s : GameClient) (p : Player) (a b : Q) :
  my_player s = Some p ->
  cameraX (updateCamera (set_cameraY b (set_cameraX a s)))
    = cameraX (updateCamera s) /\
  cameraY (updateCamera (set_cameraY b (set_cameraX a s)))
    = cameraY (updateCamera s) /\
  updateCamera (updateCamera s) = updateCamera s /\
  ((canvasWidth s <= 2 * x p)%Z ->
   (2 * x p + canvasWidth s <= 2 * worldWidth)%Z ->
   ((worldToScreen (x p) (y p) (updateCamera s)).1
      == inject_Z (canvasWidth s) / 2)%Q) /\
  ((canvasHeight s <= 2 * y p)%Z ->
   (2 * y p + canvasHeight s <= 2 * worldHeight)%Z ->
   ((worldToScreen (x p) (y p) (updateCamera s)).2
      == inject_Z (canvasHeight s) / 2)%Q).
Proof.
  intros Hp.
  assert (Hp' : my_player (set_cameraY b (set_cameraX a s)) = Some p)
    by exact Hp.
  destruct (updateCamera_offsets s p Hp) as (Hx & Hy & _ & _).
  destruct (updateCamera_offsets _ p Hp') as (Hx' & Hy' & _ & _).
  split; [by rewrite Hx', Hx|]. split; [by rewrite Hy', Hy|].
  split; [apply updateCamera_idempotent|].
  unfold worldToScreen; simpl. rewrite Hx, Hy. clear Hx Hy Hx' Hy'.
  split.
  - intros Hlo Hhi.
    rewrite Zle_Qle, inject_Z_mult in Hlo.
    rewrite Zle_Qle, inject_Z_plus, !inject_Z_mult in Hhi.
    change (inject_Z 2) with 2%Q in Hlo, Hhi.
    assert (Hhalf : (inject_Z (canvasWidth s)
                     == 2 * (inject_Z (canvasWidth s) / 2))%Q) by field.
    rewrite clamp_inside.
    + field.
    + set (half := (inject_Z (canvasWidth s) / 2)%Q) in *. lra.
    + rewrite inject_Z_sub.
      set (half := (inject_Z (canvasWidth s) / 2)%Q) in *. lra.
  - intros Hlo Hhi.
    rewrite Zle_Qle, inject_Z_mult in Hlo.
    rewrite Zle_Qle, inject_Z_plus, !inject_Z_mult in Hhi.
    change (inject_Z 2) with 2%Q in Hlo, Hhi.
    assert (Hhalf : (inject_Z (canvasHeight s)
                     == 2 * (inject_Z (canvasHeight s) / 2))%Q) by field.
    rewrite clamp_inside.
    + field.
    + set (half := (inject_Z (canvasHeight s) / 2)%Q) in *. lra.
    + rewrite inject_Z_sub.
      set (half := (inject_Z (canvasHeight s) / 2)%Q) in *. lra.
Qed.

Lemma camera_recomputed_witness :
  let s := in_middle in
  cameraX (updateCamera (set_cameraY 7 (set_cameraX 9 s)))
    = cameraX (updateCamera s) /\
  ((worldToScreen 1000 1000 (updateCamera s)).1 == 400)%Q /\
  ((worldToScreen 1000 1000 (updateCamera s)).2 == 300)%Q.
Proof.
  intros s.
  destruct (camera_recomputed s (set_y 1000 (set_x 1000 p1)) 9 7 eq_refl)
    as (Hx & _ & _ & Hcx & Hcy).
  split; [exact Hx|]. split.
  - rewrite Hcx; [reflexivity | vm_compute; discriminate
                  | vm_compute; discriminate].
  - rewrite Hcy; [reflexivity | vm_compute; discriminate
                  | vm_compute; discriminate].
Defined.

Lemma clamp_on_screen (pos view world : Q) :
  (0 <= pos <= world)%Q -> (0 <= view <= world)%Q ->
  let cam := Math_max 0 (Math_min (pos - view / 2) (world - view)) in
  (0 <= pos - cam <= view)%Q.
Proof.
  intros Hpos Hview cam.
  assert (Hhalf : (view == 2 * (view / 2))%Q) by field.
  set (half := (view / 2)%Q) in *.
  unfold cam, Math_max, Math_min.
  destruct (Q.max_spec 0 (Qmin (pos - half) (world - view)))
    as [[Hmax ->]|[Hmax ->]];
    destruct (Q.min_spec (pos - half) (world - view))
      as [[Hmin Heq]|[Hmin Heq]];
    rewrite ?Heq in *; lra.
Qed.

Lemma updateCamera_on_screen s p :
  my_player s = Some p -> in_world p ->
  (0 <= canvasWidth s <= worldWidth)%Z ->
  (0 <= canvasHeight s <= worldHeight)%Z ->
  let sp := worldToScreen (x p) (y p) (updateCamera s) in
  (0 <= sp.1 <= inject_Z (canvasWidth s))%Q /\
  (0 <= sp.2 <= inject_Z (canvasHeight s))%Q.
Proof.
  intros Hp [Hx Hy] Hw Hh sp.
  destruct (updateCamera_offsets s p Hp) as (Hcx & Hcy & _ & _).
  unfold sp, worldToScreen; simpl. rewrite Hcx, Hcy.
  rewrite !inject_Z_sub.
  unfold worldWidth, worldHeight in *.
  split; apply clamp_on_screen; change 0%Q with (inject_Z 0);
    rewrite <- !Zle_Qle; lia.
Qed.

(** X14. While the controlled player is the object stored under its id,
    its store entry is never culled: with the player inside the world and
    a viewport no larger than the world, the screen position after the
    camera update lies inside the viewport, so when the frame image is in
    the cache the call of [renderAvatar] for that store entry draws it,
    mirrored exactly for a facing of left or west, and starts no load. *)
Theorem controlled_player_is_drawn
  (s : GameClient) (i : string) (l : loc) (p : Player) (av : Avatar)
  (fd : string) (img : Image) :
  myPlayerId s = Some i -> players s !! i = Some l ->
  myPlayer s = Some l -> heap s !! l = Some p -> in_world p ->
  (0 <= canvasWidth s <= worldWidth)%Z ->
  (0 <= canvasHeight s <= worldHeight)%Z ->
  avatars s !! avatar p = Some av ->
  frameData av (actualDirection (direction_of p)) (frame_of p) = Some fd ->
  imageCache s !! cacheKey p (direction_of p) (frame_of p) = Some img ->
  let s' := updateCamera s in
  let sp := worldToScreen (x p) (y p) s' in
  store_player s' = Some p /\
  (0 <= sp.1 <= inject_Z (canvasWidth s))%Q /\
  (0 <= sp.2 <= inject_Z (canvasHeight s))%Q /\
  effects_since s' (renderAvatar l s') =
    [(DrewAvatar (cacheKey p (direction_of p) (frame_of p)) img
        (shouldFlip (direction_of p)),
      Some (position p))].
Proof.
  intros Hid Hpl Hmy Hobj Hin Hw Hh Hav Hfd Hcache s' sp.
  assert (Hp : my_player s = Some p).
  { unfold my_player. rewrite Hmy. exact Hobj. }
  destruct (updateCamera_on_screen s p Hp Hin Hw Hh) as [Hsx Hsy].
  fold s' in Hsx, Hsy.
  assert (Hstore : store_player s' = Some p).
  { unfold s'. rewrite store_player_updateCamera.
    unfold store_player. rewrite Hid. simpl. rewrite Hpl. exact Hobj. }
  split; [exact Hstore|]. split; [exact Hsx|]. split; [exact Hsy|].
  assert (Hobj' : heap s' !! l = Some p).
  { unfold s'. by rewrite (footprint_updateCamera heap) by untouched. }
  assert (Hav' : avatars s' !! avatar p = Some av).
  { unfold s'. by rewrite (footprint_updateCamera avatars) by untouched. }
  assert (Hcache' : imageCache s' !! cacheKey p (direction_of p) (frame_of p)
                    = Some img).
  { unfold s'. by rewrite (footprint_updateCamera imageCache) by untouched. }
  assert (Hcw : canvasWidth s' = canvasWidth s).
  { unfold s'. by rewrite (footprint_updateCamera canvasWidth) by untouched. }
  assert (Hch : canvasHeight s' = canvasHeight s).
  { unfold s'. by rewrite (footprint_updateCamera canvasHeight) by untouched. }
  assert (Hq : forall a b : Q, (a <= b)%Q -> negb (Qle_bool a b) = false).
  { intros a b Hab. apply Qle_bool_iff in Hab. by rewrite Hab. }
  apply effects_since_app.
  unfold renderAvatar. rewrite Hobj', Hav', Hfd, Hcache'.
  unfold renderAvatar_draw. rewrite Hobj', Hcache', Hcw, Hch.
  fold sp.
  fold sp in Hsx, Hsy.
  rewrite !Hq; [simpl; by rewrite Hstore | ..];
    clearbody sp; destruct sp as [sx sy]; cbn [fst snd] in *; lra.
Qed.

Lemma controlled_player_is_drawn_witness :
  let s := set_imageCache {[ "hero_south_0" := mkImage "s0" 32 48 ]} at_corner in
  store_player (updateCamera s) = Some (set_y 2048 (set_x 2048 p1)) /\
  effects_since (updateCamera s) (renderAvatar 0%nat (updateCamera s)) =
    [(DrewAvatar "hero_south_0" (mkImage "s0" 32 48) false,
      Some (2048, 2048)%Z)].
Proof.
  intros s.
  assert (Hin : in_world (set_y 2048 (set_x 2048 p1))).
  { unfold in_world, worldWidth, worldHeight; simpl; lia. }
  assert (Hw : (0 <= canvasWidth s <= worldWidth)%Z).
  { split; vm_compute; discriminate. }
  assert (Hh : (0 <= canvasHeight s <= worldHeight)%Z).
  { split; vm_compute; discriminate. }
  assert (Hid : myPlayerId s = Some "p1") by (vm_compute; reflexivity).
  assert (Hpl : players s !! "p1" = Some 0%nat) by (vm_compute; reflexivity).
  assert (Hmy : myPlayer s = Some 0%nat) by (vm_compute; reflexivity).
  assert (Hobj : heap s !! 0%nat = Some (set_y 2048 (set_x 2048 p1)))
    by (vm_compute; reflexivity).
  assert (Hav : avatars s !! avatar (set_y 2048 (set_x 2048 p1)) = Some hero)
    by (vm_compute; reflexivity).
  assert (Hfd : frameData hero
                  (actualDirection (direction_of (set_y 2048 (set_x 2048 p1))))
                  (frame_of (set_y 2048 (set_x 2048 p1))) = Some "s0")
    by (vm_compute; reflexivity).
  assert (Hc : imageCache s !! cacheKey (set_y 2048 (set_x 2048 p1))
                 (direction_of (set_y 2048 (set_x 2048 p1)))
                 (frame_of (set_y 2048 (set_x 2048 p1)))
               = Some (mkImage "s0" 32 48))
    by (vm_compute; reflexivity).
  destruct (controlled_player_is_drawn s "p1" 0%nat
              (set_y 2048 (set_x 2048 p1)) hero "s0" (mkImage "s0" 32 48)
              Hid Hpl Hmy Hobj Hin Hw Hh Hav Hfd Hc)
    as (Hstore & _ & _ & Hdrawn).
  exact (conj Hstore Hdrawn).
Defined.

(** Without that precondition the store entry can be culled: after an
    inbound [players_moved] has put a new object at (2000,2000) under the
    controlled player's id, the camera still follows the old object at
    (100,100), and the call of [renderAvatar] for the store entry draws
    nothing although its frame image is cached. *)
Example replaced_entry_is_culled :
  let s := set_imageCache {[ "hero_south_0" := mkImage "s0" 32 48 ]}
             (run joined
                [ev_message
                   (in_players_moved
                      [("p1", set_y 2000 (set_x 2000 p1))])]) in
  players (updateCamera s) !! "p1" = Some 2%nat /\
  position <$> store_player (updateCamera s) = Some (2000, 2000)%Z /\
  position <$> my_player (updateCamera s) = Some (100, 100)%Z /\
  renderAvatar 2%nat (updateCamera s) = updateCamera s.
Proof.
  intros s.
  split; [vm_compute; reflexivity|]. split; [vm_compute; reflexivity|].
  split; vm_compute; reflexivity.
Qed.

(** ** The camera is never stale *)

Ltac commute_camera :=
  intros;
  match goal with s : GameClient |- _ =>
    destruct s as [cw ch wi h pl pk av mid mp ic ks ls im cx cy so su tr] end;
  unfold log, updateCamera, my_player; simpl;
  match goal with |- context [match ?c with _ => _ end] => destruct c end;
  reflexivity.

Lemma updateCamera_set_pressedKeys v s :
  updateCamera (set_pressedKeys v s) = set_pressedKeys v (updateCamera s).
Proof. commute_camera. Qed.

Lemma updateCamera_set_lastSentDirection v s :
  updateCamera (set_lastSentDirection v s)
    = set_lastSentDirection v (updateCamera s).
Proof. commute_camera. Qed.

Lemma updateCamera_set_isMoving v s :
  updateCamera (set_isMoving v s) = set_isMoving v (updateCamera s).
Proof. commute_camera. Qed.

Lemma updateCamera_set_socket v s :
  updateCamera (set_socket v s) = set_socket v (updateCamera s).
Proof. commute_camera. Qed.

Lemma updateCamera_set_suspended v s :
  updateCamera (set_suspended v s) = set_suspended v (updateCamera s).
Proof. commute_camera. Qed.

Lemma updateCamera_set_imageCache v s :
  updateCamera (set_imageCache v s) = set_imageCache v (updateCamera s).
Proof. commute_camera. Qed.

Lemma updateCamera_log e s : updateCamera (log e s) = log e (updateCamera s).
Proof. commute_camera. Qed.

Lemma synced_inert (f : GameClient -> GameClient) s :
  (forall t, updateCamera (f t) = f (updateCamera t)) ->
  camera_synced s -> camera_synced (f s).
Proof. unfold camera_synced. intros Hf Hs. by rewrite Hf, Hs. Qed.

Create HintDb synced.

#[local] Hint Resolve updateCamera_set_pressedKeys
  updateCamera_set_lastSentDirection updateCamera_set_isMoving
  updateCamera_set_socket updateCamera_set_suspended
  updateCamera_set_imageCache updateCamera_log : synced.

(** [camera_synced (g t)] from [camera_synced t] when [g] commutes with
    the camera update. *)
Ltac peel_synced :=
  lazymatch goal with
  | |- camera_synced (?g ?t) =>
      first [ solve [auto with synced]
            | apply (synced_inert g t); [solve [auto with synced]|] ]
  end.

Ltac synced_tac := repeat peel_synced; auto with synced.

Lemma synced_renderAvatar_draw key l flip s :
  camera_synced s -> camera_synced (renderAvatar_draw key l flip s).
Proof.
  intros Hs. unfold renderAvatar_draw.
  destruct (imageCache s !! key), (heap s !! l); try exact Hs.
  match goal with |- context [if ?b then _ else _] => destruct b end;
    synced_tac.
Qed.

Lemma synced_renderAvatar l s :
  camera_synced s -> camera_synced (renderAvatar l s).
Proof.
  intros Hs. unfold renderAvatar, loadAvatarImage.
  destruct (heap s !! l) as [player|]; [|exact Hs].
  destruct (avatars s !! avatar player) as [av|]; [|exact Hs].
  destruct (frameData _ _ _); [|exact Hs].
  destruct (imageCache s !! _).
  - by apply synced_renderAvatar_draw.
  - synced_tac.
Qed.

Lemma synced_render s : worldImage s = true -> camera_synced (render s).
Proof.
  intros Hw. unfold render. rewrite Hw. simpl.
  assert (Hpainted : camera_synced
            (log (Painted (cameraX (updateCamera s)) (cameraY (updateCamera s)))
               (updateCamera s))).
  { unfold camera_synced. by rewrite updateCamera_log, updateCamera_idempotent. }
  match goal with |- context [first_player ?t] =>
    destruct (first_player t) end; [by apply synced_renderAvatar | exact Hpainted].
Qed.

Lemma synced_sendMoveCommand k s :
  worldImage s = true -> camera_synced s -> camera_synced (sendMoveCommand k s).
Proof.
  intros Hw Hs. unfold sendMoveCommand, socket_send.
  destruct (socket_open s); simpl; [|exact Hs].
  destruct (keyCodeToDirection k) as [d|]; [|exact Hs].
  unfold updateMyPosition. simpl.
  destruct (myPlayer s) as [l|] eqn:Hmy; simpl; rewrite Hmy.
  - by apply synced_render.
  - synced_tac.
Qed.

Lemma synced_sendStopCommand s :
  camera_synced s -> camera_synced (sendStopCommand s).
Proof.
  intros Hs. unfold sendStopCommand, socket_send.
  destruct (socket_open s); simpl; synced_tac.
Qed.

Lemma worldImage_step s e : worldImage (step s e) = worldImage s.
Proof.
  pose proof (footprint_step worldImage s e) as Hother.
  destruct e as [code|code| | |data|w h| |l|i w h];
    try (apply Hother; untouched); simpl.
  - apply footprint_handleKeyDown; untouched.
  - apply footprint_handleKeyUp; untouched.
  - reflexivity.
  - reflexivity.
Qed.

Lemma synced_step s e :
  worldImage s = true -> camera_synced s -> camera_synced (step s e).
Proof.
  intros Hw Hs.
  destruct e as [code|code| | |data|w h| |l|i w h]; simpl.
  - unfold handleKeyDown.
    destruct (includes code arrowKeys); simpl; [|exact Hs].
    destruct (is_pressed code s); [exact Hs|].
    apply synced_sendMoveCommand; [exact Hw | synced_tac].
  - unfold handleKeyUp, sendMoveCommandForPressedKeys.
    destruct (includes code arrowKeys); simpl; [|exact Hs].
    set (s1 := set_pressedKeys _ s).
    assert (H1 : camera_synced s1) by (unfold s1; synced_tac).
    match goal with |- context [negb ?b] => destruct b end; simpl.
    + generalize (set_property code false (pressedKeys s)).
      intros entries. induction entries as [|[k b] rest IH]; [exact H1|].
      simpl. destruct b; [by apply synced_sendMoveCommand | exact IH].
    + by apply synced_sendStopCommand.
  - unfold onopen, joinGame, socket_send. synced_tac.
  - unfold onclose. synced_tac.
  - pose proof (worldImage_step s (ev_message data)) as Hw'.
    simpl in Hw'. unfold onmessage, handleServerMessage in *.
    rewrite (footprint_render worldImage) in Hw' by untouched.
    apply synced_render. by rewrite Hw'.
  - apply synced_render.
    rewrite (footprint_updateCamera worldImage) by untouched. exact Hw.
  - by apply synced_render.
  - by apply synced_renderAvatar.
  - unfold renderAvatar_resume.
    destruct (suspended s !! i); [|exact Hs].
    apply synced_renderAvatar_draw. synced_tac.
Qed.

(** X15. The camera is never stale: from a state in which the world image
    object exists and the camera offset is the computed one (as after the
    constructor), every sequence of events ends in such a state; whenever
    a controlled player exists, the offset on each axis is the player's
    position minus half the canvas size, clamped to
    [0, world size - canvas size] with the lower bound winning. *)
Theorem camera_never_stale (s : GameClient) (es : list Event) :
  worldImage s = true -> camera_synced s ->
  let s' := run s es in
  camera_synced s' /\
  forall p, my_player s' = Some p ->
    cameraX s' =
      Math_max 0 (Math_min (inject_Z (x p) - inject_Z (canvasWidth s') / 2)
                           (inject_Z (worldWidth - canvasWidth s'))) /\
    cameraY s' =
      Math_max 0 (Math_min (inject_Z (y p) - inject_Z (canvasHeight s') / 2)
                           (inject_Z (worldHeight - canvasHeight s'))).
Proof.
  intros Hw Hs s'.
  assert (H : worldImage s' = true /\ camera_synced s').
  { unfold s'. clear s'. revert s Hw Hs.
    induction es as [|e es IH]; intros s Hw Hs; [by split|].
    apply (IH (step s e)); [by rewrite worldImage_step | by apply synced_step]. }
  destruct H as [_ Hsync]. split; [exact Hsync|].
  intros p Hp. destruct (updateCamera_offsets s' p Hp) as (Hx & Hy & _ & _).
  unfold camera_synced in Hsync. rewrite Hsync in Hx, Hy. by split.
Qed.

Lemma camera_never_stale_witness :
  camera_synced
    (run (initial 800 600)
       [ev_open; ev_message join_ok; ev_keydown "ArrowRight";
        ev_resize 640 480; ev_keyup "ArrowRight";
        ev_message (in_players_moved [("p2", set_x 316 p2)])]).
Proof.
  apply (camera_never_stale (initial 800 600)); reflexivity.
Defined.

(** ** Avatars that cannot be resolved *)

Lemma frameData_None av d n :
  frames av !! d = None \/
  (exists fs, frames av !! d = Some fs /\ (length fs <= N.to_nat n)%nat) ->
  frameData av d n = None.
Proof.
  unfold frameData. intros [->|(fs & -> & Hlen)]; [reflexivity|].
  simpl. by rewrite lookup_ge_None_2.
Qed.

(** X16. An avatar that cannot be resolved is skipped silently: when the
    player's avatar is unknown, or the avatar has no frames for the lookup
    direction, or the frame index is past the end of the frame list, the
    call of [renderAvatar] changes nothing, draws nothing and starts no
    load.  The key aliases up, down and right are looked up literally, so
    with an avatar that has no frames under those names a player facing
    one of them is not drawn. *)
Theorem unresolved_avatar_is_skipped
  (s : GameClient) (l : loc) (player : Player) :
  heap s !! l = Some player ->
  (avatars s !! avatar player = None -> renderAvatar l s = s) /\
  (forall av, avatars s !! avatar player = Some av ->
     (frames av !! actualDirection (direction_of player) = None ->
      renderAvatar l s = s) /\
     (forall fs, frames av !! actualDirection (direction_of player) = Some fs ->
                 (length fs <= N.to_nat (frame_of player))%nat ->
                 renderAvatar l s = s) /\
     (forall d, facing player = Some d ->
                d = "up" \/ d = "down" \/ d = "right" ->
                frames av !! d = None -> renderAvatar l s = s)).
Proof.
  intros Hobj.
  assert (Hskip : forall av, avatars s !! avatar player = Some av ->
            frameData av (actualDirection (direction_of player))
              (frame_of player) = None -> renderAvatar l s = s).
  { intros av Hav Hfd. unfold renderAvatar. by rewrite Hobj, Hav, Hfd. }
  split.
  - intros Hav. unfold renderAvatar. by rewrite Hobj, Hav.
  - intros av Hav. split; [|split].
    + intros Hnone. apply (Hskip av Hav). apply frameData_None. by left.
    + intros fs Hfs Hlen. apply (Hskip av Hav). apply frameData_None.
      right. by exists fs.
    + intros d Hd Hcase Hnone. apply (Hskip av Hav). apply frameData_None.
      left. unfold direction_of. rewrite Hd.
      by destruct Hcase as [-> | [-> | ->]].
Qed.

Lemma unresolved_avatar_is_skipped_witness :
  let moved := sendMoveCommand "ArrowRight" joined in
  renderAvatar 0%nat moved = moved /\
  renderAvatar 0%nat (set_avatars ∅ joined) = set_avatars ∅ joined /\
  renderAvatar 0%nat
    (set_heap [set_facing (Some "north-east") p1] joined)
  = set_heap [set_facing (Some "north-east") p1] joined /\
  renderAvatar 0%nat
    (set_heap [mkPlayer "p1" 100 100 None (Some 2%N) "Jadon" "hero"] joined)
  = set_heap [mkPlayer "p1" 100 100 None (Some 2%N) "Jadon" "hero"] joined.
Proof.
  intros moved.
  destruct (unresolved_avatar_is_skipped moved 0%nat
              (set_facing (Some "right") (set_x 116 p1)))
    as [_ Hmoved]; [vm_compute; reflexivity|].
  destruct (Hmoved hero) as (_ & _ & Hright); [vm_compute; reflexivity|].
  destruct (unresolved_avatar_is_skipped (set_avatars ∅ joined) 0%nat p1)
    as [Hunknown _]; [vm_compute; reflexivity|].
  destruct (unresolved_avatar_is_skipped
              (set_heap [set_facing (Some "north-east") p1] joined) 0%nat
              (set_facing (Some "north-east") p1))
    as [_ Hdir]; [reflexivity|].
  destruct (Hdir hero) as (Hnodir & _ & _); [vm_compute; reflexivity|].
  destruct (unresolved_avatar_is_skipped
              (set_heap [mkPlayer "p1" 100 100 None (Some 2%N) "Jadon" "hero"]
                 joined) 0%nat
              (mkPlayer "p1" 100 100 None (Some 2%N) "Jadon" "hero"))
    as [_ Hframe]; [reflexivity|].
  destruct (Hframe hero) as (_ & Hrange & _); [vm_compute; reflexivity|].
  split; [|split; [|split]].
  - apply (Hright "right"); [reflexivity | auto | vm_compute; reflexivity].
  - apply Hunknown. vm_compute; reflexivity.
  - apply Hnodir. vm_compute; reflexivity.
  - apply (Hrange ["s0"; "s1"]); [vm_compute; reflexivity | vm_compute; lia].
Defined.

(** ** Where cached images come from *)

Lemma load_logged_later key data s s' :
  appends anything s s' -> load_logged key data s -> load_logged key data s'.
Proof.
  intros (new & Hnew & _) (snap & Hin). exists snap. rewrite Hnew.
  apply elem_of_app. by left.
Qed.

Lemma cache_justified_later s s' :
  appends anything s s' ->
  imageCache s' = imageCache s -> suspended s' = suspended s ->
  cache_justified s -> cache_justified s'.
Proof.
  intros Hext Hc Hs [Hcache Hsus]. split.
  - intros key img Hk. rewrite Hc in Hk.
    eapply load_logged_later; [exact Hext | by apply Hcache].
  - intros k Hk. rewrite Hs in Hk.
    eapply load_logged_later; [exact Hext | by apply Hsus].
Qed.

Lemma cache_justified_renderAvatar l s :
  cache_justified s -> cache_justified (renderAvatar l s).
Proof.
  intros Hj.
  assert (Hext : appends anything s (renderAvatar l s))
    by apply extends_of_silent, silent_renderAvatar.
  assert (Hcache : imageCache (renderAvatar l s) = imageCache s)
    by (apply footprint_renderAvatar; untouched).
  destruct Hj as [Hc Hs]. split.
  - intros key img Hk. rewrite Hcache in Hk.
    eapply load_logged_later; [exact Hext | by apply Hc].
  - unfold renderAvatar in *.
    destruct (heap s !! l) as [player|]; [|exact Hs].
    destruct (avatars s !! avatar player) as [av|]; [|exact Hs].
    destruct (frameData _ _ _) as [fd|]; [|exact Hs].
    destruct (imageCache s !! _).
    + intros k Hk.
      rewrite (footprint_renderAvatar_draw suspended) in Hk by untouched.
      eapply load_logged_later; [exact Hext | by apply Hs].
    + intros k Hk. simpl in Hk. apply elem_of_app in Hk as [Hk|Hk].
      * eapply load_logged_later; [exact Hext | by apply Hs].
      * apply list_elem_of_singleton in Hk as ->. simpl.
        eexists. unfold loadAvatarImage, log; simpl.
        apply elem_of_app. right. left.
Qed.

Lemma cache_justified_renderAvatar_resume i w h s :
  cache_justified s -> cache_justified (renderAvatar_resume i w h s).
Proof.
  intros [Hc Hs].
  assert (Hext : appends anything s (renderAvatar_resume i w h s))
    by apply extends_of_silent, silent_renderAvatar_resume.
  unfold renderAvatar_resume in *.
  destruct (suspended s !! i) as [k|] eqn:Hk; [|by split].
  split.
  - intros key img.
    rewrite (footprint_renderAvatar_draw imageCache) by untouched. simpl.
    intros Hlook. eapply load_logged_later; [exact Hext|].
    destruct (decide (sus_key k = key)) as [<-|Hne].
    + rewrite lookup_insert_eq in Hlook. injection Hlook as <-. simpl.
      apply Hs. by eapply list_elem_of_lookup_2.
    + rewrite lookup_insert_ne in Hlook by exact Hne. by apply Hc.
  - intros k'.
    rewrite (footprint_renderAvatar_draw suspended) by untouched. simpl.
    intros Hin. eapply load_logged_later; [exact Hext|]. apply Hs.
    by eapply list_elem_of_delete_inv.
Qed.

Lemma cache_justified_updateCamera s :
  cache_justified s -> cache_justified (updateCamera s).
Proof.
  apply cache_justified_later.
  - apply extends_of_silent, silent_updateCamera.
  - apply footprint_updateCamera; untouched.
  - apply footprint_updateCamera; untouched.
Qed.

(** [cache_justified (g t)] from [cache_justified t] when [g] recomputes
    the camera, or only adds to the trace and assigns neither to the cache
    nor to the suspended calls. *)
Ltac peel_justified :=
  lazymatch goal with
  | |- cache_justified (?g ?t) =>
      first [ apply cache_justified_updateCamera
            | apply (cache_justified_later t (g t));
              [ first [ apply appends_same; reflexivity
                      | apply appends_log; exact I ]
              | reflexivity | reflexivity | ] ]
  end.

Ltac justified_tac := repeat peel_justified; try assumption.

Lemma cache_justified_render s : cache_justified s -> cache_justified (render s).
Proof.
  intros Hj. unfold render. destruct (worldImage s); simpl; [|exact Hj].
  match goal with |- context [first_player ?t] =>
    destruct (first_player t) end;
    [apply cache_justified_renderAvatar|]; justified_tac.
Qed.

Lemma cache_justified_sendMoveCommand k s :
  cache_justified s -> cache_justified (sendMoveCommand k s).
Proof.
  intros Hj. unfold sendMoveCommand, socket_send.
  destruct (socket_open s); simpl; [|exact Hj].
  destruct (keyCodeToDirection k) as [d|]; [|exact Hj].
  unfold updateMyPosition. simpl.
  destruct (myPlayer s) as [l|] eqn:Hmy; simpl; rewrite Hmy;
    [apply cache_justified_render|]; justified_tac.
Qed.

Lemma cache_justified_sendStopCommand s :
  cache_justified s -> cache_justified (sendStopCommand s).
Proof.
  intros Hj. unfold sendStopCommand, socket_send.
  destruct (socket_open s); simpl; justified_tac.
Qed.

Lemma cache_justified_onmessage data s :
  cache_justified s -> cache_justified (onmessage data s).
Proof.
  intros Hj. unfold onmessage, handleServerMessage.
  apply cache_justified_render.
  destruct data as [[] ? ? ? ?| ? ?| ?| ?| ? ?| ? ?| ?]; simpl; justified_tac.
  rewrite lookup_app_r by lia. rewrite Nat.sub_diag. simpl. justified_tac.
Qed.

Lemma cache_justified_step s e : cache_justified s -> cache_justified (step s e).
Proof.
  intros Hj.
  destruct e as [code|code| | |data|w h| |l|i w h]; simpl.
  - unfold handleKeyDown.
    destruct (includes code arrowKeys); simpl; [|exact Hj].
    destruct (is_pressed code s); [exact Hj|].
    apply cache_justified_sendMoveCommand. justified_tac.
  - unfold handleKeyUp, sendMoveCommandForPressedKeys.
    destruct (includes code arrowKeys); simpl; [|exact Hj].
    set (s1 := set_pressedKeys _ s).
    assert (H1 : cache_justified s1) by (unfold s1; justified_tac).
    match goal with |- context [negb ?b] => destruct b end; simpl.
    + generalize (set_property code false (pressedKeys s)).
      intros entries. induction entries as [|[k b] rest IH]; [exact H1|].
      simpl. destruct b; [by apply cache_justified_sendMoveCommand | exact IH].
    + by apply cache_justified_sendStopCommand.
  - unfold onopen, joinGame, socket_send. justified_tac.
  - unfold onclose. justified_tac.
  - by apply cache_justified_onmessage.
  - apply cache_justified_render. justified_tac.
  - by apply cache_justified_render.
  - by apply cache_justified_renderAvatar.
  - by apply cache_justified_renderAvatar_resume.
Qed.

(** X17. Every image in the cache comes from a load that was started for
    its key, with the frame data that is its source, and so does every
    call still waiting for its load: this holds after the constructor and
    every handler keeps it. *)
Theorem cached_images_were_loaded (s : GameClient) (es : list Event) :
  cache_justified s -> cache_justified (run s es).
Proof.
  revert s. induction es as [|e es IH]; intros s Hs; [exact Hs|].
  apply (IH (step s e)). by apply cache_justified_step.
Qed.

Lemma cached_images_were_loaded_witness :
  cache_justified
    (run (initial 800 600)
       [ev_open; ev_message join_ok; ev_renderAvatar 0%nat;
        ev_renderAvatar 1%nat; ev_imageLoaded 1%nat 32 48;
        ev_renderAvatar 1%nat]).
Proof.
  apply (cached_images_were_loaded (initial 800 600)).
  split.
  - intros key img H. vm_compute in H. discriminate H.
  - intros k H. vm_compute in H. inversion H.
Defined.

(** ** When the controlled player stays the stored object *)

Lemma heap_length_sendMoveCommand k s :
  length (heap (sendMoveCommand k s)) = length (heap s).
Proof.
  unfold sendMoveCommand.
  destruct (socket_open s); simpl; [|reflexivity].
  destruct (keyCodeToDirection k) as [d|]; [|reflexivity].
  unfold updateMyPosition; simpl.
  destruct (myPlayer s) as [l|] eqn:Hmy; simpl; rewrite Hmy.
  - rewrite (footprint_render heap) by untouched. simpl.
    by rewrite !length_alter.
  - reflexivity.
Qed.

Lemma heap_length_key_event s e :
  match e with
  | ev_keydown _ | ev_keyup _ => length (heap (step s e)) = length (heap s)
  | _ => True
  end.
Proof.
  destruct e as [code|code| | |data|w h| |l|i w h]; try exact I; simpl.
  - unfold handleKeyDown.
    destruct (includes code arrowKeys); simpl; [|reflexivity].
    destruct (is_pressed code s); [reflexivity|].
    by rewrite heap_length_sendMoveCommand.
  - unfold handleKeyUp, sendMoveCommandForPressedKeys.
    destruct (includes code arrowKeys); simpl; [|reflexivity].
    match goal with |- context [negb ?b] => destruct b end; simpl.
    + generalize (set_property code false (pressedKeys s)) at 1.
      intros entries. induction entries as [|[k b] rest IH]; [reflexivity|].
      simpl. destruct b; [by rewrite heap_length_sendMoveCommand | exact IH].
    + by rewrite (footprint_sendStopCommand heap) by untouched.
Qed.

Lemma myPlayerId_onmessage data s :
  match data with
  | in_join_game true _ _ _ _ => True
  | _ => myPlayerId (onmessage data s) = myPlayerId s
  end.
Proof.
  unfold onmessage, handleServerMessage.
  destruct data as [[] ? ? ? ?| ? ?| ?| ?| ? ?| ? ?| ?]; try exact I;
    rewrite (footprint_render myPlayerId) by untouched; simpl;
    try reflexivity.
  by rewrite lookup_app_r, Nat.sub_diag by lia.
Qed.

Lemma aliased_intro s i l :
  myPlayerId s = Some i -> myPlayer s = Some l -> players s !! i = Some l ->
  is_Some (heap s !! l) -> aliased s.
Proof. intros. exists i, l. auto. Qed.

(** X18. The controlled player stays the very object stored under its id
    through every event except a message that names that id: key events,
    connection events, resizing, rendering, and every inbound message that
    neither carries nor removes the controlled player's id (and every
    successful join whose table has the assigned id) keep the two the
    same object. *)
Theorem alias_survives (s : GameClient) (e : Event) (i : string) :
  myPlayerId s = Some i -> aliased s -> keeps_alias i e ->
  aliased (step s e).
Proof.
  intros Hid (i' & l & Hid' & Hmy & Hpl & Hlive) Hok.
  assert (i' = i) as -> by congruence. clear Hid'.
  apply lookup_lt_is_Some in Hlive.
  destruct e as [code|code| | |data|w h| |l'|j w h].
  - pose proof (heap_length_key_event s (ev_keydown code)) as Hlen.
    simpl in *. apply (aliased_intro _ i l).
    + by rewrite (footprint_handleKeyDown myPlayerId) by untouched.
    + by rewrite (footprint_handleKeyDown myPlayer) by untouched.
    + by rewrite (footprint_handleKeyDown players) by untouched.
    + apply lookup_lt_is_Some. by rewrite Hlen.
  - pose proof (heap_length_key_event s (ev_keyup code)) as Hlen.
    simpl in *. apply (aliased_intro _ i l).
    + by rewrite (footprint_handleKeyUp myPlayerId) by untouched.
    + by rewrite (footprint_handleKeyUp myPlayer) by untouched.
    + by rewrite (footprint_handleKeyUp players) by untouched.
    + apply lookup_lt_is_Some. by rewrite Hlen.
  - apply (aliased_intro _ i l); try assumption.
    by apply lookup_lt_is_Some.
  - apply (aliased_intro _ i l); try assumption.
    by apply lookup_lt_is_Some.
  - simpl.
    assert (Hkeep : is_Some (heap (onmessage data s) !! l)).
    { apply lookup_lt_is_Some in Hlive as [p Hp]. exists p.
      rewrite heap_onmessage. by apply JSON_parse_keeps. }
    destruct data as [[] pid kvs avs err|p av|kvs|pid|ok err|ok err|act];
      simpl in Hok.
    + destruct Hok as [p Hp]. by eapply join_establishes_alias.
    + apply (aliased_intro _ i l); try exact Hkeep;
        unfold onmessage, handleServerMessage; simpl.
      * by rewrite (footprint_render myPlayerId) by untouched.
      * by rewrite (footprint_render myPlayer) by untouched.
      * by rewrite (footprint_render players) by untouched.
    + destruct (onmessage_player_joined_store p av s) as (_ & Hp1 & _).
      apply (aliased_intro _ i l); try exact Hkeep.
      * pose proof (myPlayerId_onmessage (in_player_joined p av) s) as H.
        simpl in H. by rewrite H.
      * pose proof (myPlayer_onmessage (in_player_joined p av) s) as H.
        simpl in H. by rewrite H.
      * rewrite Hp1. by rewrite lookup_insert_ne.
    + destruct (onmessage_players_moved_store kvs s) as (_ & Hp1 & Hmy1 & Hid1).
      apply (aliased_intro _ i l); try exact Hkeep.
      * by rewrite Hid1.
      * by rewrite Hmy1.
      * rewrite Hp1. unfold Object_assign. rewrite lookup_union_r; [done|].
        destruct (parse_object_spec kvs (heap s)) as [_ Hget].
        specialize (Hget i). by rewrite Hok in Hget.
    + destruct (onmessage_player_left_store pid s) as (_ & Hp1 & _ & Hmy1).
      apply (aliased_intro _ i l); try exact Hkeep.
      * pose proof (myPlayerId_onmessage (in_player_left pid) s) as H.
        simpl in H. by rewrite H.
      * by rewrite Hmy1.
      * rewrite Hp1. by rewrite lookup_delete_ne.
    + apply (aliased_intro _ i l); try exact Hkeep;
        unfold onmessage, handleServerMessage; simpl.
      * by rewrite (footprint_render myPlayerId) by untouched.
      * by rewrite (footprint_render myPlayer) by untouched.
      * by rewrite (footprint_render players) by untouched.
    + apply (aliased_intro _ i l); try exact Hkeep;
        unfold onmessage, handleServerMessage; simpl.
      * by rewrite (footprint_render myPlayerId) by untouched.
      * by rewrite (footprint_render myPlayer) by untouched.
      * by rewrite (footprint_render players) by untouched.
    + apply (aliased_intro _ i l); try exact Hkeep;
        unfold onmessage, handleServerMessage; simpl.
      * by rewrite (footprint_render myPlayerId) by untouched.
      * by rewrite (footprint_render myPlayer) by untouched.
      * by rewrite (footprint_render players) by untouched.
  - simpl. apply (aliased_intro _ i l).
    + rewrite (footprint_render myPlayerId),
        (footprint_updateCamera myPlayerId) by untouched. exact Hid.
    + rewrite (footprint_render myPlayer),
        (footprint_updateCamera myPlayer) by untouched. exact Hmy.
    + rewrite (footprint_render players),
        (footprint_updateCamera players) by untouched. exact Hpl.
    + rewrite (footprint_render heap),
        (footprint_updateCamera heap) by untouched.
      by apply lookup_lt_is_Some.
  - simpl. apply (aliased_intro _ i l).
    + by rewrite (footprint_render myPlayerId) by untouched.
    + by rewrite (footprint_render myPlayer) by untouched.
    + by rewrite (footprint_render players) by untouched.
    + rewrite (footprint_render heap) by untouched. by apply lookup_lt_is_Some.
  - simpl. apply (aliased_intro _ i l).
    + by rewrite (footprint_renderAvatar myPlayerId) by untouched.
    + by rewrite (footprint_renderAvatar myPlayer) by untouched.
    + by rewrite (footprint_renderAvatar players) by untouched.
    + rewrite (footprint_renderAvatar heap) by untouched.
      by apply lookup_lt_is_Some.
  - simpl. apply (aliased_intro _ i l).
    + by rewrite (footprint_renderAvatar_resume myPlayerId) by untouched.
    + by rewrite (footprint_renderAvatar_resume myPlayer) by untouched.
    + by rewrite (footprint_renderAvatar_resume players) by untouched.
    + rewrite (footprint_renderAvatar_resume heap) by untouched.
      by apply lookup_lt_is_Some.
Qed.

Lemma alias_survives_witness :
  aliased (step joined (ev_keydown "ArrowRight")) /\
  aliased (step joined (ev_message (in_players_moved [("p2", set_x 316 p2)]))) /\
  aliased (step joined (ev_message (in_player_left "p2"))).
Proof.
  assert (Hj : aliased joined).
  { exists "p1", 0%nat. vm_compute. repeat split. eexists; reflexivity. }
  split; [|split].
  - apply (alias_survives joined _ "p1"); [reflexivity | exact Hj | exact I].
  - apply (alias_survives joined _ "p1");
      [reflexivity | exact Hj | reflexivity].
  - apply (alias_survives joined _ "p1");
      [reflexivity | exact Hj | discriminate].
Defined.

(** ** Positions that are sent *)

Lemma calculateNewPosition_in_world d s :
  (forall p, my_player s = Some p -> in_world p) ->
  (0 <= (calculateNewPosition d s).1 <= worldWidth)%Z /\
  (0 <= (calculateNewPosition d s).2 <= worldHeight)%Z.
Proof.
  intros Hin. destruct (my_player s) as [p|] eqn:Hp.
  - rewrite (calculateNewPosition_applyMove d s p Hp).
    apply (applyMove_in_world d p). by apply Hin.
  - unfold calculateNewPosition. rewrite Hp. simpl.
    unfold worldWidth, worldHeight. lia.
Qed.

Lemma sendMoveCommand_sent k s :
  sent_since s (sendMoveCommand k s) =
  if socket_open s then
    match keyCodeToDirection k with
    | Some d =>
        let s1 := match myPlayer s with
                  | Some l => update_object l (set_facing (Some d)) s
                  | None => s
                  end in
        [move (calculateNewPosition d s1).1 (calculateNewPosition d s1).2]
    | None => []
    end
  else [].
Proof.
  unfold sendMoveCommand, sent_since.
  destruct (socket_open s); simpl;
    [|unfold effects_since; by rewrite drop_all].
  destruct (keyCodeToDirection k) as [d|];
    [|unfold effects_since; by rewrite drop_all].
  set (s1 := match myPlayer s with
             | Some l => update_object l (set_facing (Some d)) s
             | None => s
             end).
  assert (Ht1 : trace s1 = trace s) by (unfold s1; by destruct (myPlayer s)).
  unfold updateMyPosition. simpl.
  match goal with |- context [match ?c with _ => _ end] => destruct c end.
  - match goal with |- context [render ?t] =>
      destruct (trace_render t) as (new & Htr & Hnew) end.
    erewrite effects_since_app.
    2: { rewrite Htr. unfold socket_send, log; simpl.
         rewrite Ht1, <- app_assoc. reflexivity. }
    match goal with |- context [if ?b then _ else _] => destruct b end;
      [|reflexivity].
    match goal with |- omap message_of ([(Sent ?m, _)] ++ _ :: new) = _ =>
      change (m :: omap message_of new = [m]) end.
    by rewrite (avatar_effects_not_sent _ _ Hnew).
  - erewrite effects_since_app.
    2: { unfold socket_send, log; simpl. rewrite Ht1. reflexivity. }
    reflexivity.
Qed.

(** X19. Every position the client sends lies inside the world: when the
    controlled player, if there is one, is inside the world, each [move]
    message sent for a move intent carries coordinates in
    [0, worldWidth] x [0, worldHeight]. *)
Theorem sent_positions_in_world (k : string) (s : GameClient) :
  (forall p, my_player s = Some p -> in_world p) ->
  forall mx my,
    move mx my ∈ sent_since s (sendMoveCommand k s) ->
    (0 <= mx <= worldWidth)%Z /\ (0 <= my <= worldHeight)%Z.
Proof.
  intros Hin mx my. rewrite sendMoveCommand_sent.
  destruct (socket_open s); [|by intros ?%elem_of_nil].
  destruct (keyCodeToDirection k) as [d|]; [|by intros ?%elem_of_nil].
  simpl. intros Hm. apply list_elem_of_singleton in Hm.
  injection Hm as -> ->.
  apply calculateNewPosition_in_world.
  intros p. destruct (myPlayer s) as [l|] eqn:Hmy; [|apply Hin].
  unfold my_player; simpl. rewrite Hmy; simpl.
  rewrite list_lookup_alter_eq.
  destruct (heap s !! l) as [q|] eqn:Hq; simpl; [|done].
  intros [= <-]. apply (Hin q). unfold my_player. rewrite Hmy. exact Hq.
Qed.

Lemma sent_positions_in_world_witness :
  move 2048 2048 ∈ sent_since at_corner (sendMoveCommand "ArrowDown" at_corner) /\
  (0 <= 2048 <= worldWidth)%Z /\ (0 <= 2048 <= worldHeight)%Z.
Proof.
  assert (Hin : forall p, my_player at_corner = Some p -> in_world p).
  { intros p Hp. vm_compute in Hp. injection Hp as <-.
    unfold in_world, worldWidth, worldHeight; simpl; lia. }
  assert (Hsent : move 2048 2048
                    ∈ sent_since at_corner (sendMoveCommand "ArrowDown" at_corner))
    by (vm_compute; left).
  split; [exact Hsent|].
  exact (sent_positions_in_world "ArrowDown" at_corner Hin 2048%Z 2048%Z Hsent).
Defined.

(** ** What the handlers never touch *)

(** X20. Key events never change the player table and its key order, the
    avatars, the controlled player reference, the channel, the canvas or
    the image cache; inbound messages never change the key state, the
    moving flags, the channel, the canvas or the image cache; and drawing
    avatars (before and after the load) never changes a player object, the
    tables, the controlled player, the camera, the key state or the
    channel.  Key events and inbound messages do render, so they can leave
    a call of [renderAvatar] suspended at its load. *)
Theorem event_footprints (s : GameClient) (e : Event) :
  let s' := step s e in
  match e with
  | ev_keydown _ | ev_keyup _ =>
      players s' = players s /\ playerKeys s' = playerKeys s /\
      avatars s' = avatars s /\
      myPlayerId s' = myPlayerId s /\ myPlayer s' = myPlayer s /\
      socket s' = socket s /\ canvasWidth s' = canvasWidth s /\
      canvasHeight s' = canvasHeight s /\ imageCache s' = imageCache s
  | ev_message _ =>
      pressedKeys s' = pressedKeys s /\
      lastSentDirection s' = lastSentDirection s /\
      isMoving s' = isMoving s /\ socket s' = socket s /\
      canvasWidth s' = canvasWidth s /\ canvasHeight s' = canvasHeight s /\
      imageCache s' = imageCache s
  | ev_renderAvatar _ | ev_imageLoaded _ _ _ =>
      heap s' = heap s /\ players s' = players s /\
      playerKeys s' = playerKeys s /\ avatars s' = avatars s /\
      myPlayerId s' = myPlayerId s /\ myPlayer s' = myPlayer s /\
      cameraX s' = cameraX s /\ cameraY s' = cameraY s /\
      pressedKeys s' = pressedKeys s /\ isMoving s' = isMoving s /\
      socket s' = socket s
  | _ => True
  end.
Proof.
  intros s'. unfold s'.
  destruct e as [code|code| | |data|w h| |l|i w h]; simpl; try exact I.
  - repeat split; apply footprint_handleKeyDown; untouched.
  - repeat split; apply footprint_handleKeyUp; untouched.
  - repeat split; apply footprint_onmessage; untouched.
  - repeat split; apply footprint_renderAvatar; untouched.
  - repeat split; apply footprint_renderAvatar_resume; untouched.
Qed.

(** In the example session the handler of the first key-down leaves a
    second call of [renderAvatar] suspended. *)
Example keydown_suspends_a_call :
  suspended joined = [mkSuspended "hero_south_0" "s0" 0%nat false] /\
  suspended (step joined (ev_keydown "ArrowLeft")) =
    [mkSuspended "hero_south_0" "s0" 0%nat false;
     mkSuspended "hero_left_0" "e0" 0%nat true].
Proof. split; vm_compute; reflexivity. Qed.

(** ** The key order of the player table *)

Lemma existsb_eqb k ks : existsb (String.eqb k) ks = true <-> k ∈ ks.
Proof.
  rewrite existsb_exists, list_elem_of_In. split.
  - intros (k' & Hin & Heq). apply String.eqb_eq in Heq. by subst.
  - intros Hin. exists k. split; [exact Hin | apply String.eqb_refl].
Qed.

Lemma elem_of_insert_index n k ks k0 :
  k0 ∈ insert_index n k ks <-> k0 = k \/ k0 ∈ ks.
Proof.
  induction ks as [|k' rest IH]; simpl.
  - rewrite list_elem_of_singleton, elem_of_nil. tauto.
  - destruct (array_index k') as [n'|]; [destruct (n' <? n)%N|];
      rewrite ?elem_of_cons, ?IH, ?elem_of_cons; intuition auto.
Qed.

Lemma NoDup_insert_index n k ks :
  k ∉ ks -> NoDup ks -> NoDup (insert_index n k ks).
Proof.
  induction ks as [|k' rest IH]; simpl; intros Hk Hnd.
  - apply NoDup_singleton.
  - apply not_elem_of_cons in Hk as [Hne Hk].
    apply NoDup_cons in Hnd as [Hk' Hnd].
    assert (Hhead : NoDup (k :: k' :: rest)).
    { apply NoDup_cons. split; [|by apply NoDup_cons].
      apply not_elem_of_cons. by split. }
    destruct (array_index k') as [n'|]; [destruct (n' <? n)%N|];
      try exact Hhead.
    apply NoDup_cons. split; [|by apply IH].
    rewrite elem_of_insert_index. intros [->|Hin]; [done | by apply Hk'].
Qed.

Lemma add_key_spec k ks :
  (forall k0, k0 ∈ add_key k ks <-> k0 = k \/ k0 ∈ ks) /\
  (NoDup ks -> NoDup (add_key k ks)).
Proof.
  unfold add_key. destruct (existsb (String.eqb k) ks) eqn:He.
  - apply existsb_eqb in He. split; [|done].
    intros k0. split; [auto | by intros [->|?]].
  - assert (Hk : k ∉ ks).
    { rewrite <- existsb_eqb. by rewrite He. }
    destruct (array_index k) as [n|].
    + split; [intros k0; apply elem_of_insert_index
             | by apply NoDup_insert_index].
    + split.
      * intros k0. rewrite elem_of_app, list_elem_of_singleton. tauto.
      * intros Hnd. apply NoDup_app. split; [exact Hnd|].
        split; [|apply NoDup_singleton].
        intros k0 Hin ->%list_elem_of_singleton. by apply Hk.
Qed.

Lemma remove_key_spec k ks :
  (forall k0, k0 ∈ remove_key k ks <-> k0 <> k /\ k0 ∈ ks) /\
  (NoDup ks -> NoDup (remove_key k ks)).
Proof.
  unfold remove_key. split.
  - intros k0. rewrite !list_elem_of_In, filter_In.
    destruct (String.eqb_spec k0 k); simpl; split; intros [? ?]; auto;
      congruence.
  - rewrite !NoDup_ListNoDup. apply List.NoDup_filter.
Qed.

Lemma parse_keys_fold kvs :
  forall ks (acc : list Player * gmap string loc),
    NoDup ks -> (forall k, k ∈ ks <-> is_Some (acc.2 !! k)) ->
    NoDup (foldl (fun ks kv => add_key kv.1 ks) ks kvs) /\
    forall k, k ∈ foldl (fun ks kv => add_key kv.1 ks) ks kvs <->
              is_Some ((foldl parse_entry acc kvs).2 !! k).
Proof.
  induction kvs as [|kv kvs IH]; intros ks acc Hnd Hks; [by split|].
  simpl. destruct (add_key_spec kv.1 ks) as [Hin Hnd'].
  apply IH; [by apply Hnd'|].
  intros k. rewrite Hin. unfold parse_entry; simpl.
  destruct (decide (k = kv.1)) as [->|Hne].
  - rewrite lookup_insert_eq. split; eauto.
  - rewrite lookup_insert_ne by done. rewrite <- Hks. tauto.
Qed.

Lemma parse_keys_spec kvs h :
  NoDup (parse_keys kvs) /\
  forall k, k ∈ parse_keys kvs <-> is_Some ((parse_object kvs h).2 !! k).
Proof.
  apply (parse_keys_fold kvs [] (h, ∅)); [apply NoDup_nil_2|].
  intros k. simpl. rewrite lookup_empty, elem_of_nil.
  split; [done | by intros [? ?]].
Qed.

Lemma Object_assign_keys_spec source :
  forall target,
    (forall k, k ∈ Object_assign_keys target source <->
               k ∈ target \/ k ∈ source) /\
    (NoDup target -> NoDup (Object_assign_keys target source)).
Proof.
  unfold Object_assign_keys.
  induction source as [|k0 source IH]; intros target; simpl.
  - split; [|done]. intros k. rewrite elem_of_nil. tauto.
  - destruct (IH (add_key k0 target)) as [Hin Hnd].
    destruct (add_key_spec k0 target) as [Hin0 Hnd0]. split.
    + intros k. rewrite Hin, Hin0, elem_of_cons. tauto.
    + intros H. by apply Hnd, Hnd0.
Qed.

Lemma keys_agree_onmessage data s :
  keys_agree s -> keys_agree (onmessage data s).
Proof.
  intros [Hnd Hks]. unfold keys_agree, onmessage, handleServerMessage.
  rewrite (footprint_render players), (footprint_render playerKeys)
    by untouched.
  destruct data as [[] pid kvs avs err|p av|kvs|pid|ok err|ok err|act];
    simpl; try (split; assumption).
  - rewrite (footprint_updateCamera players),
      (footprint_updateCamera playerKeys) by untouched. simpl.
    apply parse_keys_spec.
  - rewrite lookup_app_r by lia. rewrite Nat.sub_diag. simpl.
    destruct (add_key_spec (id p) (playerKeys s)) as [Hin Hnd'].
    split; [by apply Hnd'|]. intros k. rewrite Hin.
    destruct (decide (k = id p)) as [->|Hne].
    + rewrite lookup_insert_eq. split; eauto.
    + rewrite lookup_insert_ne by done. rewrite <- Hks. tauto.
  - destruct (Object_assign_keys_spec (parse_keys kvs) (playerKeys s))
      as [Hin Hnd'].
    destruct (parse_keys_spec kvs (heap s)) as [_ Hparsed].
    split; [by apply Hnd'|]. intros k. rewrite Hin.
    unfold Object_assign. rewrite lookup_union_is_Some, Hks, Hparsed. tauto.
  - destruct (remove_key_spec pid (playerKeys s)) as [Hin Hnd'].
    split; [by apply Hnd'|]. intros k. rewrite Hin.
    destruct (decide (k = pid)) as [->|Hne].
    + rewrite lookup_delete_eq. split; [by intros [? _] | by intros [? ?]].
    + rewrite lookup_delete_ne by done. rewrite <- Hks. tauto.
Qed.

(** The model of the key order is consistent: under every sequence of
    events [playerKeys] lists exactly the ids of the player table, without
    repetition, so the first key of the enumeration, when there is one, is
    an id that the table has. *)
Lemma keys_agree_run (s : GameClient) (es : list Event) :
  keys_agree s ->
  keys_agree (run s es) /\
  (is_Some (first_player (run s es)) <-> playerKeys (run s es) <> []).
Proof.
  intros Hs.
  assert (Hrun : keys_agree (run s es)).
  { revert s Hs. induction es as [|e es IH]; intros s Hs; [exact Hs|].
    apply (IH (step s e)).
    assert (Hsame : players (step s e) = players s ->
                    playerKeys (step s e) = playerKeys s ->
                    keys_agree (step s e)).
    { unfold keys_agree. by intros -> ->. }
    destruct e as [code|code| | |data|w h| |l|i w h]; simpl in *.
    - apply Hsame; apply footprint_handleKeyDown; untouched.
    - apply Hsame; apply footprint_handleKeyUp; untouched.
    - exact Hs.
    - exact Hs.
    - by apply keys_agree_onmessage.
    - apply Hsame;
        rewrite footprint_render, footprint_updateCamera by untouched;
        reflexivity.
    - apply Hsame; apply footprint_render; untouched.
    - apply Hsame; apply footprint_renderAvatar; untouched.
    - apply Hsame; apply footprint_renderAvatar_resume; untouched. }
  split; [exact Hrun|].
  destruct Hrun as [_ Hks]. unfold first_player.
  destruct (playerKeys (run s es)) as [|k rest]; simpl.
  - split; [by intros [? ?] | done].
  - split; [done|]. intros _. apply Hks. left.
Qed.

Corollary keys_agree_reachable (w h : Z) (es : list Event) :
  keys_agree (run (initial w h) es).
Proof.
  apply keys_agree_run. split; [apply NoDup_nil_2|].
  intros k. simpl. rewrite lookup_empty, elem_of_nil.
  split; [done | by intros [? ?]].
Qed.
